(** * fabio: consul service watcher and HTTP dispatcher

    A shallow embedding of [proxy.ServeHTTP] (proxy/proxy.go) and of
    [watchServices], [servicesConfig] and [serviceConfig]
    (registry/consul/service.go), with the properties of the design
    document proved about them.

    Go strings are byte strings: [string] (a list of [ascii] bytes).
    Go maps are stdpp [gmap]s.  Calls that leave the process (the consul
    client, the log, the channel, the response writer) are modelled as
    explicit state passing over an abstract world together with a trace of
    the observable events. *)

From Stdlib Require Import ZArith NArith Ascii String DecimalString.
From stdpp Require Import base option list gmap strings sorting.

Local Open Scope string_scope.
Local Open Scope list_scope.

(** ** The parts of the Go library the program calls *)

Module golib.

(** The double quote and the backslash, as one-byte strings. *)
Definition dquote : string := String "034"%char EmptyString.
Definition backslash : string := String "092"%char EmptyString.

(** [strings.Join(elems, sep)]. *)
Definition Join (elems : list string) (sep : string) : string :=
  String.concat sep elems.

(** [strings.HasPrefix(s, prefix)]. *)
Definition HasPrefix (s prefix : string) : bool := String.prefix prefix s.

(** [strings.HasSuffix(s, suffix)]:
    [len(s) >= len(suffix) && s[len(s)-len(suffix):] == suffix]. *)
Definition HasSuffix (s suffix : string) : bool :=
  (String.length suffix <=? String.length s)%nat &&
  String.eqb
    (String.substring (String.length s - String.length suffix)
                      (String.length suffix) s)
    suffix.

(** [strings.Contains(s, substr)]: [substr] starts at some offset of [s]. *)
Fixpoint Contains (s substr : string) : bool :=
  String.prefix substr s ||
  match s with
  | EmptyString => false
  | String _ s' => Contains s' substr
  end.

(** The verb [%d] of [fmt.Sprintf] on an [int] and on a [uint64]. *)
Definition fmt_d (n : Z) : string := NilZero.string_of_int (Z.to_int n).
Definition fmt_u (n : N) : string := NilZero.string_of_uint (N.to_uint n).

(** *** [strconv.Quote], which is what the verb [%q] prints for a string *)

Definition hexdigit (n : N) : string :=
  match String.get (N.to_nat n) "0123456789abcdef" with
  | Some c => String c EmptyString
  | None => EmptyString
  end.

(** [n] as [k] lower-case hexadecimal digits, most significant first. *)
Fixpoint hex (k : nat) (n : N) : string :=
  match k with
  | O => EmptyString
  | S k' => hex k' (n / 16) +:+ hexdigit (n mod 16)
  end.

Definition RuneError : N := 65533.

Definition between (lo hi b : N) : bool := (lo <=? b)%N && (b <=? hi)%N.

(** [utf8.DecodeRuneInString]: the first rune of [s] and its width in
    bytes; [(RuneError, 1)] on a byte sequence that is not UTF-8. *)
Definition DecodeRuneInString (s : string) : N * nat :=
  match s with
  | EmptyString => (RuneError, 0%nat)
  | String c0 s1 =>
    let b0 := N_of_ascii c0 in
    if (b0 <? 128)%N then (b0, 1%nat)
    else if between 194 223 b0 then
      match s1 with
      | String c1 _ =>
        let b1 := N_of_ascii c1 in
        if between 128 191 b1
        then (N.lor (N.shiftl (N.land b0 31) 6) (N.land b1 63), 2%nat)
        else (RuneError, 1%nat)
      | _ => (RuneError, 1%nat)
      end
    else if between 224 239 b0 then
      match s1 with
      | String c1 (String c2 _) =>
        let b1 := N_of_ascii c1 in
        let b2 := N_of_ascii c2 in
        let lo := if (b0 =? 224)%N then 160%N else 128%N in
        let hi := if (b0 =? 237)%N then 159%N else 191%N in
        if between lo hi b1 && between 128 191 b2
        then (N.lor (N.shiftl (N.land b0 15) 12)
                (N.lor (N.shiftl (N.land b1 63) 6) (N.land b2 63)), 3%nat)
        else (RuneError, 1%nat)
      | _ => (RuneError, 1%nat)
      end
    else if between 240 244 b0 then
      match s1 with
      | String c1 (String c2 (String c3 _)) =>
        let b1 := N_of_ascii c1 in
        let b2 := N_of_ascii c2 in
        let b3 := N_of_ascii c3 in
        let lo := if (b0 =? 240)%N then 144%N else 128%N in
        let hi := if (b0 =? 244)%N then 143%N else 191%N in
        if between lo hi b1 && between 128 191 b2 && between 128 191 b3
        then (N.lor (N.shiftl (N.land b0 7) 18)
                (N.lor (N.shiftl (N.land b1 63) 12)
                   (N.lor (N.shiftl (N.land b2 63) 6) (N.land b3 63))), 4%nat)
        else (RuneError, 1%nat)
      | _ => (RuneError, 1%nat)
      end
    else (RuneError, 1%nat)
  end.

Section Quote.
(** [strconv.IsPrint] above Latin-1 is a table of the Unicode version the
    binary was built with; it is a parameter here. *)
Variable unicodeIsPrint : N -> bool.

Definition IsPrint (r : N) : bool :=
  if (r <=? 255)%N then
    if between 32 126 r then true
    else if between 161 255 r then negb (r =? 173)%N
    else false
  else unicodeIsPrint r.

(** [appendEscapedRune] for the double quote as quote character, with
    [ASCIIonly = false] and [graphicOnly = false]; [enc] is the UTF-8
    encoding of [r]. *)
Definition appendEscapedRune (r : N) (enc : string) : string :=
  if (r =? 34)%N || (r =? 92)%N then backslash +:+ enc
  else if IsPrint r then enc
  else if (r =? 7)%N then backslash +:+ "a"
  else if (r =? 8)%N then backslash +:+ "b"
  else if (r =? 12)%N then backslash +:+ "f"
  else if (r =? 10)%N then backslash +:+ "n"
  else if (r =? 13)%N then backslash +:+ "r"
  else if (r =? 9)%N then backslash +:+ "t"
  else if (r =? 11)%N then backslash +:+ "v"
  else if (r <? 32)%N || (r =? 127)%N then backslash +:+ "x" +:+ hex 2 r
  else if (r <? 65536)%N then backslash +:+ "u" +:+ hex 4 r
  else backslash +:+ "U" +:+ hex 8 r.

(** The loop of [appendQuotedWith]: [skip] counts the bytes of the rune
    decoded last that are still to be stepped over. *)
Fixpoint quoteLoop (skip : nat) (s : string) : string :=
  match s with
  | EmptyString => EmptyString
  | String c s' =>
    match skip with
    | S k => quoteLoop k s'
    | O =>
      let '(r, width) := DecodeRuneInString s in
      (if (width =? 1)%nat && (r =? RuneError)%N
       then backslash +:+ "x" +:+ hex 2 (N_of_ascii c)
       else appendEscapedRune r (String.substring 0 width s))
      +:+ quoteLoop (width - 1) s'
    end
  end.

Definition Quote (s : string) : string := dquote +:+ quoteLoop 0 s +:+ dquote.
End Quote.

(** [sort.Sort(sort.Reverse(sort.StringSlice(a)))]: [a] in descending byte
    order.  The order on strings is total and antisymmetric, so the
    descending arrangement of [a] is unique and the algorithm that
    [sort.Sort] runs does not show in the result. *)
Definition string_ge : relation string := flip String.le.

Definition SortReverse (a : list string) : list string :=
  merge_sort string_ge a.

(** The order in which [range] visits a map is not specified.  [seed] is
    the choice the runtime makes: entry [n mod len] is visited next. *)
Fixpoint rangeOrder {A} (seed : list nat) (l : list A) : list A :=
  match seed with
  | [] => l
  | n :: seed' =>
    let i := (n mod length l)%nat in
    match l !! i with
    | Some x => x :: rangeOrder seed' (delete i l)
    | None => l
    end
  end.

End golib.

(** ** Effects

    A computation reads and changes the world [W] outside the process and
    leaves a trace of events of type [E], oldest first. *)

Module effects.

Definition M (W E A : Type) : Type := W -> A * W * list E.

#[global] Instance M_ret {W E} : MRet (M W E) :=
  fun A (a : A) w => (a, w, []).

#[global] Instance M_bind {W E} : MBind (M W E) :=
  fun A B (f : A -> M W E B) (m : M W E A) w =>
    let '(a, w1, t1) := m w in
    let '(b, w2, t2) := f a w1 in
    (b, w2, t1 ++ t2).

(** One observable event. *)
Definition emit {W E} (e : E) : M W E unit := fun w => (tt, w, [e]).

(** A call that is answered from outside the process. *)
Definition call {W E A} (f : W -> A * W) : M W E A :=
  fun w => let '(a, w') := f w in (a, w', []).

(** A read that leaves the world as it is. *)
Definition peek {W E A} (f : W -> A) : M W E A := fun w => (f w, w, []).

Definition value {W E A} (r : A * W * list E) : A := r.1.1.
Definition world {W E A} (r : A * W * list E) : W := r.1.2.
Definition trace {W E A} (r : A * W * list E) : list E := r.2.

End effects.

(** ** The consul API the watcher consumes (github.com/hashicorp/consul/api) *)

Module api.

Definition error : Type := string.

Inductive result (A : Type) : Type :=
| Ok (a : A)
| Err (err : error).
Arguments Ok {A} a.
Arguments Err {A} err.

Record QueryOptions : Type := {
  Datacenter : string;
  RequireConsistent : bool;
  WaitIndex : N;
}.

Record QueryMeta : Type := { LastIndex : N }.

Module HealthCheck.
Record t : Type := {
  Node : string;
  CheckID : string;
  Status : string;
  ServiceID : string;
  ServiceName : string;
  }.
End HealthCheck.

Module CatalogService.
Record t : Type := {
  Node : string;
  Address : string;
  ServiceID : string;
  ServiceName : string;
  ServiceAddress : string;
  ServiceTags : list string;
  ServicePort : Z;
  }.
End CatalogService.

(** [*api.Client]: each call is answered by the consul agent, which is
    part of the world. *)
Record Client (W : Type) : Type := {
  Health_State :
    string -> QueryOptions -> W ->
    result (list HealthCheck.t * QueryMeta) * W;
  Catalog_Datacenters : W -> result (list string) * W;
  Catalog_Service :
    string -> string -> QueryOptions -> W ->
    result (list CatalogService.t) * W;
}.
Arguments Health_State {W} _ _ _ _.
Arguments Catalog_Datacenters {W} _ _.
Arguments Catalog_Service {W} _ _ _ _ _.

End api.

(** ** registry/consul/service.go *)

Module consul.
Import golib effects api.

Definition newline : string := String "010"%char EmptyString.

(** [time.Second], in nanoseconds. *)
Definition Second : Z := 1000000000.

Inductive Event : Type :=
| LogPrintf (line : string)        (* log.Printf, the formatted message *)
| TimeSleep (d : Z)                (* time.Sleep *)
| ChanSend (doc : string).         (* config <- doc *)

(** The documents a trace sends down the channel, oldest first. *)
Definition sends (t : list Event) : list string :=
  omap (fun e => match e with ChanSend doc => Some doc | _ => None end) t.

Section service.
Context {W : Type}.

(** [runtime.GOOS]. *)
Variable GOOS : string.
(** The table behind [strconv.IsPrint] (see [golib.IsPrint]). *)
Variable unicodeIsPrint : N -> bool.
(** The choice the runtime makes when a [range] over a map starts. *)
Variable mapiterinit : W -> list nat.
(** [parseURLPrefixTag(tag, prefix, env)] of this package, whose file is
    not among the sources at hand: [Some (host, path)] when [ok]. *)
Variable parseURLPrefixTag :
  string -> string -> gmap string string -> option (string * string).
(** [passingServices(checks, status)] of this package, likewise. *)
Variable passingServices :
  list HealthCheck.t -> list string -> list HealthCheck.t.

Local Abbreviation M := (M W Event).

Definition Printf (line : string) : M unit := emit (LogPrintf line).

(** The line built at the innermost point of [serviceConfig]. *)
Definition routeLine (svc : CatalogService.t) (host path : string) : string :=
  let name := CatalogService.ServiceName svc in
  let addr := CatalogService.ServiceAddress svc in
  let port := CatalogService.ServicePort svc in
  let addr := if String.eqb addr "" then CatalogService.Address svc else addr in
  let addr :=
    if String.eqb GOOS "darwin" && negb (Contains addr ".")
       && negb (HasSuffix addr ".local")
    then addr +:+ ".local" else addr in
  "route add " +:+ name +:+ " " +:+ host +:+ path +:+ " http://" +:+ addr
    +:+ ":" +:+ fmt_d port +:+ "/ tags "
    +:+ Quote unicodeIsPrint (Join (CatalogService.ServiceTags svc) ",").

(** [for _, tag := range svc.ServiceTags]. *)
Fixpoint rangeTags (svc : CatalogService.t) (tagPrefix : string)
    (env : gmap string string) (tags : list string)
    (config : list string) : list string :=
  match tags with
  | [] => config
  | tag :: tags' =>
    match parseURLPrefixTag tag tagPrefix env with
    | Some (host, path) =>
      rangeTags svc tagPrefix env tags' (config ++ [routeLine svc host path])
    | None => rangeTags svc tagPrefix env tags' config
    end
  end.

(** [for _, svc := range svcs]. *)
Fixpoint rangeSvcs (passing : gmap string bool) (tagPrefix : string)
    (env : gmap string string) (svcs : list CatalogService.t)
    (config : list string) : list string :=
  match svcs with
  | [] => config
  | svc :: svcs' =>
    match passing !! CatalogService.ServiceID svc with
    | None => rangeSvcs passing tagPrefix env svcs' config
    | Some _ =>
      rangeSvcs passing tagPrefix env svcs'
        (rangeTags svc tagPrefix env (CatalogService.ServiceTags svc) config)
    end
  end.

(** [for _, dc := range datacenters]; [None] is the [return nil] taken
    when a catalog call fails. *)
Fixpoint rangeDatacenters (client : Client W) (name : string)
    (passing : gmap string bool) (tagPrefix : string)
    (datacenters : list string) (config : list string)
    : M (option (list string)) :=
  match datacenters with
  | [] => mret (Some config)
  | dc :: datacenters' =>
    let q := {| RequireConsistent := true; Datacenter := dc; WaitIndex := 0 |} in
    r ← call (Catalog_Service client name "" q);
    match r with
    | Err err =>
      _ ← Printf ("[WARN] consul: Error getting catalog service " +:+ name
                    +:+ ". " +:+ err);
      mret None
    | Ok svcs =>
      let env : gmap string string := {[ "DC" := dc ]} in
      rangeDatacenters client name passing tagPrefix datacenters'
        (rangeSvcs passing tagPrefix env svcs config)
    end
  end.

(** [serviceConfig] constructs the config for all good instances of a
    single service. *)
Definition serviceConfig (client : Client W) (name : string)
    (passing : gmap string bool) (tagPrefix : string) : M (list string) :=
  if String.eqb name "" || (size passing =? 0)%nat then mret []
  else
    r ← call (Catalog_Datacenters client);
    match r with
    | Err err =>
      _ ← Printf ("[WARN] consul: Error getting datacenters. " +:+ err);
      mret []
    | Ok datacenters =>
      config ← rangeDatacenters client name passing tagPrefix datacenters [];
      mret (default [] config)
    end.

(** The map [m] of [servicesConfig]: service name to the IDs of the
    instances named in [checks]. *)
Definition passingMap (checks : list HealthCheck.t)
    : gmap string (gmap string bool) :=
  foldl
    (fun m check =>
       let name := HealthCheck.ServiceName check in
       let id := HealthCheck.ServiceID check in
       let m := match m !! name with
                | Some _ => m
                | None => <[ name := ∅ ]> m
                end in
       alter (fun passing => <[ id := true ]> passing) name m)
    ∅ checks.

(** [for name, passing := range m]. *)
Fixpoint rangeServices (client : Client W) (tagPrefix : string)
    (entries : list (string * gmap string bool)) (config : list string)
    : M (list string) :=
  match entries with
  | [] => mret config
  | (name, passing) :: entries' =>
    cfg ← serviceConfig client name passing tagPrefix;
    rangeServices client tagPrefix entries' (config ++ cfg)
  end.

(** The slice [config] of [servicesConfig] when the loop is left. *)
Definition collectConfig (client : Client W) (checks : list HealthCheck.t)
    (tagPrefix : string) : M (list string) :=
  let m := passingMap checks in
  seed ← peek mapiterinit;
  rangeServices client tagPrefix (rangeOrder seed (map_to_list m)) [].

(** The slice [config] of [servicesConfig] after [sort.Sort]. *)
Definition sortedConfig (client : Client W) (checks : list HealthCheck.t)
    (tagPrefix : string) : M (list string) :=
  config ← collectConfig client checks tagPrefix;
  mret (SortReverse config).

(** [servicesConfig] determines which service instances have passing
    health checks and builds the config from their prefix tags. *)
Definition servicesConfig (client : Client W) (checks : list HealthCheck.t)
    (tagPrefix : string) : M string :=
  config ← sortedConfig client checks tagPrefix;
  mret (Join config newline).

(** [for i, dc := range datacenters] of [watchServices]; [i] is the index
    of the head of [dcs]. *)
Fixpoint rangeRemote (client : Client W) (dcIndex : Z) (i : nat)
    (dcs : list string) (all_checks : list HealthCheck.t)
    : M (list HealthCheck.t) :=
  match dcs with
  | [] => mret all_checks
  | dc :: dcs' =>
    if (Z.of_nat i =? dcIndex)%Z
    then rangeRemote client dcIndex (S i) dcs' all_checks
    else
      let q := {| RequireConsistent := true; Datacenter := dc; WaitIndex := 0 |} in
      r ← call (Health_State client "any" q);
      match r with
      | Err err =>
        _ ← Printf ("[WARN] consul: Error fetching health state. " +:+ err);
        _ ← emit (TimeSleep Second);
        rangeRemote client dcIndex (S i) dcs' all_checks
      | Ok (checks, _) =>
        rangeRemote client dcIndex (S i) dcs' (all_checks ++ checks)
      end
  end.

(** [datacenters[dcIndex]]; [None] is the run-time panic. *)
Definition index (datacenters : list string) (dcIndex : Z) : option string :=
  if (dcIndex <? 0)%Z then None else datacenters !! Z.to_nat dcIndex.

(** One turn of the [for] loop of [watchServices], entered with
    [lastIndex]: the value of [lastIndex] when the turn ends, or [None]
    when the turn panics. *)
Definition watchIteration (client : Client W) (tagPrefix : string)
    (status : list string) (dcIndex : Z) (datacenters : list string)
    (lastIndex : N) : M (option N) :=
  match index datacenters dcIndex with
  | None => mret None
  | Some dc =>
    let q := {| RequireConsistent := true; WaitIndex := lastIndex;
                Datacenter := dc |} in
    r ← call (Health_State client "any" q);
    match r with
    | Err err =>
      _ ← Printf ("[WARN] consul: Error fetching health state. " +:+ err);
      _ ← emit (TimeSleep Second);
      mret (Some lastIndex)
    | Ok (checks, meta) =>
      let all_checks := [] ++ checks in
      _ ← Printf ("[WARN] consul: Health changed to #"
                    +:+ fmt_u (LastIndex meta));
      let lastIndex := LastIndex meta in
      all_checks ← rangeRemote client dcIndex 0 datacenters all_checks;
      doc ← servicesConfig client (passingServices all_checks status) tagPrefix;
      _ ← emit (ChanSend doc);
      mret (Some lastIndex)
    end
  end.

(** The first [n] turns of the loop, entered with [lastIndex]. *)
Fixpoint watchLoop (client : Client W) (tagPrefix : string)
    (status : list string) (dcIndex : Z) (datacenters : list string)
    (n : nat) (lastIndex : N) : M (option N) :=
  match n with
  | O => mret (Some lastIndex)
  | S n' =>
    r ← watchIteration client tagPrefix status dcIndex datacenters lastIndex;
    match r with
    | None => mret None
    | Some lastIndex' =>
      watchLoop client tagPrefix status dcIndex datacenters n' lastIndex'
    end
  end.

(** [watchServices] monitors the consul health checks and creates a new
    configuration on every change; the loop never ends, [n] bounds the
    turns observed. *)
Definition watchServices (client : Client W) (tagPrefix : string)
    (status : list string) (dcIndex : Z) (datacenters : list string)
    (n : nat) : M (option N) :=
  watchLoop client tagPrefix status dcIndex datacenters n 0%N.

End service.
End consul.

(** ** proxy/proxy.go *)

Module proxy.
Import golib effects.

(** [time.Duration], in nanoseconds. *)
Definition Duration : Type := Z.

(** [config.Proxy]. *)
Record config_Proxy : Type := {
  Strategy : string;
  Matcher : string;
  NoRouteStatus : Z;
  MaxConn : Z;
  ShutdownWait : Duration;
  DialTimeout : Duration;
  ResponseHeaderTimeout : Duration;
  KeepAliveTimeout : Duration;
  ReadTimeout : Duration;
  WriteTimeout : Duration;
  FlushInterval : Duration;
  LocalIP : string;
  ClientIPHeader : string;
  TLSHeader : string;
  TLSHeaderValue : string;
}.

(** [http.Header]: canonical header name to its values. *)
Definition Header : Type := gmap string (list string).

(** [h.Get(key)] for a [key] in canonical form, as [Upgrade] and [Accept]
    are: the first value of [key], the empty string when there is none. *)
Definition Header_Get (h : Header) (key : string) : string :=
  match h !! key with
  | Some (v :: _) => v
  | _ => ""
  end.

(** The fields of [*http.Request] the dispatcher and its helpers read. *)
Record Request : Type := {
  Method : string;
  Host : string;
  URL : string;
  RemoteAddr : string;
  TLS : bool;
  header : Header;
}.

(** [*route.Target]: the backend URL and the name of its timer. *)
Record Target : Type := {
  target_URL : string;
  Timer : string;
}.

(** [http.RoundTripper]: the shared transport, by name. *)
Definition RoundTripper : Type := string.

(** The handlers [ServeHTTP] chooses from: what [newRawProxy(url)] and
    [newHTTPProxy(url, tr, flush)] return. *)
Inductive Handler : Type :=
| newRawProxy (url : string)
| newHTTPProxy (url : string) (tr : RoundTripper) (flush : Duration).

(** [Proxy] is a dynamic reverse proxy; [requests] names its timer. *)
Record Proxy : Type := {
  tr : RoundTripper;
  cfg : config_Proxy;
  requests : string;
}.

Definition StatusServiceUnavailable : Z := 503.
Definition StatusInternalServerError : Z := 500.

(** What [ServeHTTP] does to the response writer, the route table, the
    chosen handler and the timers. *)
Inductive Event : Type :=
| http_Error (error : string) (code : Z)      (* http.Error(w, error, code) *)
| WriteHeader (code : Z)                      (* w.WriteHeader(code) *)
| Lookup (r : Request)                        (* target(r) *)
| Handler_ServeHTTP (h : Handler) (r : Request)   (* h.ServeHTTP(w, r) *)
| UpdateSince (timer : string) (start : Z).   (* timer.UpdateSince(start) *)

(** The handlers a trace hands a request to, the timers it updates and
    the requests it looks up in the route table. *)
Definition handlers (t : list Event) : list Handler :=
  omap (fun e => match e with Handler_ServeHTTP h _ => Some h | _ => None end) t.

Definition timerUpdates (t : list Event) : list string :=
  omap (fun e => match e with UpdateSince timer _ => Some timer | _ => None end) t.

Definition lookups (t : list Event) : list Request :=
  omap (fun e => match e with Lookup r => Some r | _ => None end) t.

(** Whether an event can write to the body of the response. *)
Definition writesBody (e : Event) : bool :=
  match e with
  | http_Error _ _ | Handler_ServeHTTP _ _ => true
  | _ => false
  end.

Section dispatch.
Context {W : Type}.

(** [ShuttingDown()]: the shutdown gate, read from the world. *)
Variable ShuttingDown : W -> bool.
(** [target(r)], the route table lookup of this package, whose file is not
    among the sources at hand: [None] is [nil]. *)
Variable target : Request -> W -> option Target * W.
(** [addHeaders(r, cfg)] of this package, likewise: the error, or the
    request with the headers set. *)
Variable addHeaders : Request -> config_Proxy -> string + Request.
(** [time.Now()]. *)
Variable Now : W -> Z * W.

Local Abbreviation M := (M W Event).

Definition ServeHTTP (p : Proxy) (r : Request) : M unit :=
  down ← peek ShuttingDown;
  if (down : bool) then
    emit (http_Error "shutting down" StatusServiceUnavailable)
  else
    t ← (_ ← emit (Lookup r); call (target r));
    match t with
    | None => emit (WriteHeader (NoRouteStatus (cfg p)))
    | Some t =>
      match addHeaders r (cfg p) with
      | inl err =>
        emit (http_Error ("cannot parse " +:+ RemoteAddr r)
                StatusInternalServerError)
      | inr r =>
        let h :=
          if String.eqb (Header_Get (header r) "Upgrade") "websocket"
          then newRawProxy (target_URL t)
          else if String.eqb (Header_Get (header r) "Accept") "text/event-stream"
          then newHTTPProxy (target_URL t) (tr p) (FlushInterval (cfg p))
          else newHTTPProxy (target_URL t) (tr p) 0%Z in
        start ← call Now;
        _ ← emit (Handler_ServeHTTP h r);
        _ ← emit (UpdateSince (requests p) start);
        emit (UpdateSince (Timer t) start)
      end
    end.

End dispatch.
End proxy.

(** ** What the design document says, in its own words *)

Module design.
Import golib effects api.

(** The canonical textual form of one route:
    route add <service> <host><path> http://<addr>:<port>/ tags
    followed by the comma separated instance tags between double quotes. *)
Definition RouteLine (service host path addr : string) (port : Z)
    (tags : list string) : string :=
  "route add " +:+ service +:+ " " +:+ host +:+ path +:+ " http://" +:+ addr
    +:+ ":" +:+ fmt_d port +:+ "/ tags " +:+ dquote +:+ Join tags "," +:+ dquote.

(** The network address of an instance: the node address when the
    instance has none of its own. *)
Definition instanceAddr (svc : CatalogService.t) : string :=
  if decide (CatalogService.ServiceAddress svc = "")
  then CatalogService.Address svc
  else CatalogService.ServiceAddress svc.

(** A byte that [%q] prints as it is: printable ASCII other than the
    double quote and the backslash. *)
Definition plainByte (c : ascii) : Prop :=
  (32 <= N_of_ascii c <= 126)%N ∧ N_of_ascii c ≠ 34%N ∧ N_of_ascii c ≠ 92%N.

Fixpoint plain (s : string) : Prop :=
  match s with
  | EmptyString => True
  | String c s' => plainByte c ∧ plain s'
  end.

(** A byte that [%q] never prints as it is: the double quote, the
    backslash and the control characters of ASCII. *)
Definition escapedByte (c : ascii) : Prop :=
  N_of_ascii c = 34%N ∨ N_of_ascii c = 92%N
  ∨ (N_of_ascii c < 32)%N ∨ N_of_ascii c = 127%N.

Fixpoint needsEscape (s : string) : Prop :=
  match s with
  | EmptyString => False
  | String c s' => escapedByte c ∨ needsEscape s'
  end.

(** A string that [%q] prints as it is: well-formed UTF-8, every
    character of which [strconv.IsPrint] holds printable and is neither
    the double quote nor the backslash.  [enc] is the encoding of the
    first character [r], that is the first [len(enc)] bytes. *)
Inductive unescaped (unicodeIsPrint : N -> bool) : string -> Prop :=
| unescaped_nil : unescaped unicodeIsPrint ""
| unescaped_rune r enc rest :
    DecodeRuneInString (enc +:+ rest) = (r, String.length enc) ->
    ¬ (String.length enc = 1%nat ∧ r = RuneError) ->
    r ≠ 34%N -> r ≠ 92%N -> IsPrint unicodeIsPrint r = true ->
    unescaped unicodeIsPrint rest ->
    unescaped unicodeIsPrint (enc +:+ rest).

(** The first [k] bytes of [s] are there and none of them is ASCII: the
    bytes that follow the first byte of a rune of [k + 1] bytes. *)
Fixpoint continuation (k : nat) (s : string) : Prop :=
  match k with
  | O => True
  | S k' =>
    match s with
    | EmptyString => False
    | String c s' => (128 <= N_of_ascii c)%N ∧ continuation k' s'
    end
  end.

(** An address with no dot, and one with no [.local] suffix. *)
Definition noDot (s : string) : Prop := ∀ pre post, s ≠ pre +:+ "." +:+ post.
Definition noLocalSuffix (s : string) : Prop := ∀ pre, s ≠ pre +:+ ".local".

Section catalog.
Context {W : Type} (GOOS : string) (unicodeIsPrint : N -> bool).
Context (parseURLPrefixTag :
           string -> string -> gmap string string -> option (string * string)).
Context (client : Client W).

(** The catalog of datacenter [dc] lists the instance [svc] under the
    service [name]. *)
Definition listed (name dc : string) (svc : CatalogService.t) : Prop :=
  ∃ w w' svcs,
    Catalog_Service client name ""
      {| Datacenter := dc; RequireConsistent := true; WaitIndex := 0 |} w
      = (Ok svcs, w')
    ∧ svc ∈ svcs.

(** The contract of [Catalog().Service(name, ...)]: what it returns are
    instances of the service [name]. *)
Definition namesKept : Prop :=
  ∀ name tag q w svcs w',
    Catalog_Service client name tag q w = (Ok svcs, w') →
    ∀ svc, svc ∈ svcs → CatalogService.ServiceName svc = name.

(** [line] is the route line of one of the tags of [svc], read with [$DC]
    bound to [dc]. *)
Definition lineOf (tagPrefix dc : string) (svc : CatalogService.t)
    (line : string) : Prop :=
  ∃ tag host path,
    tag ∈ CatalogService.ServiceTags svc
    ∧ parseURLPrefixTag tag tagPrefix {[ "DC" := dc ]} = Some (host, path)
    ∧ line = consul.routeLine GOOS unicodeIsPrint svc host path.

(** [line] comes from an instance that the catalog lists under the
    service [name] and whose ID is in the passing-set [passing]. *)
Definition fromPassing (name : string) (passing : gmap string bool)
    (tagPrefix line : string) : Prop :=
  ∃ dc svc,
    listed name dc svc
    ∧ is_Some (passing !! CatalogService.ServiceID svc)
    ∧ lineOf tagPrefix dc svc line.

End catalog.

(** The blocking read of the local datacenter [dc]: consistency required,
    [WaitIndex = lastIndex]. *)
Definition localQuery (dc : string) (lastIndex : N) : QueryOptions :=
  {| Datacenter := dc; RequireConsistent := true; WaitIndex := lastIndex |}.

Section watcher.
Context {W : Type} (client : Client W) (dcIndex : Z).

(** Step 3 of the watcher iteration: for every other datacenter of the
    configured list, in order, a consistent read of its health state that
    is not blocking; the records of a read that succeeds are appended, a
    read that fails costs a warning and a pause of one second and adds
    nothing.  [RemoteReads i dcs w records w' t]: the datacenters [dcs],
    the first of which has index [i], yield [records] and the trace [t]
    and take the world from [w] to [w']. *)
Inductive RemoteReads :
    nat -> list string -> W -> list HealthCheck.t -> W ->
    list consul.Event -> Prop :=
| remote_done i w : RemoteReads i [] w [] w []
| remote_local i dc dcs w records w' t :
    Z.of_nat i = dcIndex ->
    RemoteReads (S i) dcs w records w' t ->
    RemoteReads i (dc :: dcs) w records w' t
| remote_failed i dc dcs w err w1 records w' t :
    Z.of_nat i ≠ dcIndex ->
    Health_State client "any"
      {| Datacenter := dc; RequireConsistent := true; WaitIndex := 0 |} w
      = (Err err, w1) ->
    RemoteReads (S i) dcs w1 records w' t ->
    RemoteReads i (dc :: dcs) w records w'
      (consul.LogPrintf ("[WARN] consul: Error fetching health state. " +:+ err)
         :: consul.TimeSleep consul.Second :: t)
| remote_ok i dc dcs w checks meta w1 records w' t :
    Z.of_nat i ≠ dcIndex ->
    Health_State client "any"
      {| Datacenter := dc; RequireConsistent := true; WaitIndex := 0 |} w
      = (Ok (checks, meta), w1) ->
    RemoteReads (S i) dcs w1 records w' t ->
    RemoteReads i (dc :: dcs) w (checks ++ records) w' t.

End watcher.

(** *** The tag parser (4.A) *)

Fixpoint trimLeft (s : string) : string :=
  match s with
  | EmptyString => EmptyString
  | String c s' => if Ascii.is_space c then trimLeft s' else s
  end.

Definition TrimSpace (s : string) : string :=
  String.rev (trimLeft (String.rev (trimLeft s))).

Definition nameByte (c : ascii) : bool :=
  let n := N_of_ascii c in
  between 48 57 n || between 65 90 n || between 97 122 n || (n =? 95)%N.

(** Substitution of the [$NAME] occurrences of [s]; [cur] is the name
    being read.  [None] when a name has no binding. *)
Fixpoint expand (env : gmap string string) (cur : option string)
    (s : string) : option string :=
  match s with
  | EmptyString =>
    match cur with
    | None => Some EmptyString
    | Some name => env !! name
    end
  | String c s' =>
    let continue :=
      if Ascii.eqb c "$" then expand env (Some EmptyString) s'
      else String c <$> expand env None s' in
    match cur with
    | None => continue
    | Some name =>
      if nameByte c then expand env (Some (name +:+ String c EmptyString)) s'
      else v ← env !! name; rest ← continue; Some (v +:+ rest)
    end
  end.

(** Split at the first slash: the host and the path, which keeps the
    slash. *)
Fixpoint splitSlash (s : string) : option (string * string) :=
  match s with
  | EmptyString => None
  | String c s' =>
    if Ascii.eqb c "/" then Some (EmptyString, s)
    else '(host, path) ← splitSlash s'; Some (String c host, path)
  end.

(** Modelled from the spec: [parseURLPrefixTag] of registry/consul is not
    among the sources at hand.  Section 4.A: strip the prefix, reject when
    it is absent; substitute the [$NAME] occurrences from the bindings,
    reject when one has no binding; split at the first slash; trim
    surrounding whitespace. *)
Definition parseURLPrefixTag (tag prefix : string) (env : gmap string string)
    : option (string * string) :=
  if HasPrefix tag prefix then
    rest ← expand env None
      (String.substring (String.length prefix)
         (String.length tag - String.length prefix) tag);
    '(host, path) ← splitSlash rest;
    Some (TrimSpace host, TrimSpace path)
  else None.

(** Modelled from the spec: [passingServices] of registry/consul is not
    among the sources at hand.  Section 4.B: the records of the instances
    every health check of which has a status of the allow-list. *)
Definition passingServices (checks : list HealthCheck.t)
    (status : list string) : list HealthCheck.t :=
  filter
    (fun c =>
       Forall
         (fun c' =>
            HealthCheck.ServiceName c' = HealthCheck.ServiceName c ->
            HealthCheck.ServiceID c' = HealthCheck.ServiceID c ->
            HealthCheck.Status c' ∈ status)
         checks)
    checks.

(** *** The header injection of the dispatcher (4.F, step 3) *)

(** The IP of a remote address: what precedes its last colon; [None] when
    there is no colon. *)
Fixpoint remoteIP (addr : string) : option string :=
  match addr with
  | EmptyString => None
  | String c addr' =>
    match remoteIP addr' with
    | Some ip => Some (String c ip)
    | None => if Ascii.eqb c ":" then Some EmptyString else None
    end
  end.

(** Modelled from the spec: [addHeaders] of the proxy package is not among
    the sources at hand.  Section 4.F, step 3: append the IP of the remote
    address to X-Forwarded-For, creating the header when absent; set the
    ClientIPHeader, when one is configured, to that IP; set the TLSHeader,
    when one is configured and the listener is TLS, to TLSHeaderValue;
    fail when the remote address cannot be parsed.  Header names are
    taken in canonical form. *)
Definition addHeaders (r : proxy.Request) (cfg : proxy.config_Proxy)
    : string + proxy.Request :=
  match remoteIP (proxy.RemoteAddr r) with
  | None => inl ("cannot parse " +:+ proxy.RemoteAddr r)
  | Some ip =>
    let h := proxy.header r in
    let h := <[ "X-Forwarded-For" :=
                  default [] (h !! "X-Forwarded-For") ++ [ip] ]> h in
    let h := if String.eqb (proxy.ClientIPHeader cfg) "" then h
             else <[ proxy.ClientIPHeader cfg := [ip] ]> h in
    let h := if negb (String.eqb (proxy.TLSHeader cfg) "") && proxy.TLS r
             then <[ proxy.TLSHeader cfg := [proxy.TLSHeaderValue cfg] ]> h
             else h in
    inr {| proxy.Method := proxy.Method r; proxy.Host := proxy.Host r;
           proxy.URL := proxy.URL r; proxy.RemoteAddr := proxy.RemoteAddr r;
           proxy.TLS := proxy.TLS r; proxy.header := h |}
  end.

End design.

(** ** A small deployment, to run the definitions on *)

Module sample.
Import golib effects api.

(** The world counts the calls the consul agent has answered. *)
Definition World : Type := nat.

Definition check (name id status : string) : HealthCheck.t :=
  {| HealthCheck.Node := "node1"; HealthCheck.CheckID := "service:" +:+ id;
     HealthCheck.Status := status; HealthCheck.ServiceID := id;
     HealthCheck.ServiceName := name |}.

Definition instance (name id addr : string) (port : Z) (tags : list string)
    : CatalogService.t :=
  {| CatalogService.Node := "node1"; CatalogService.Address := "10.0.0.1";
     CatalogService.ServiceID := id; CatalogService.ServiceName := name;
     CatalogService.ServiceAddress := addr; CatalogService.ServiceTags := tags;
     CatalogService.ServicePort := port |}.

(** A catalog of one datacenter that lists [svcs] under their names; the
    agent fails the first [failures] health reads and answers the later
    ones with [checks]. *)
Definition agent (failures : nat) (checks : list HealthCheck.t)
    (svcs : list CatalogService.t) : Client World :=
  {| Health_State _ q w :=
       if (w <? failures)%nat then (Err "connection refused", S w)
       else if String.eqb (Datacenter q) "dc1"
       then (Ok (checks, {| LastIndex := 7 |}), S w)
       else (Err "no path to datacenter", S w);
     Catalog_Datacenters w := (Ok ["dc1"], S w);
     Catalog_Service name _ _ w :=
       (Ok (filter (fun svc => CatalogService.ServiceName svc = name) svcs), S w) |}.

Definition mapiterinit (w : World) : list nat := [w].
Definition unicodeIsPrint (r : N) : bool := true.

(** An instance that carries the same prefix tag twice. *)
Definition twice : CatalogService.t :=
  instance "web" "web-1" "" 8080 ["urlprefix-/"; "urlprefix-/"].

(** An instance one tag of which holds a double quote. *)
Definition quoted : CatalogService.t :=
  instance "web" "web-1" "" 8080 ["urlprefix-/"; "motd=" +:+ dquote +:+ "hi" +:+ dquote].

(** Two instances of a service: [web-1] passes, [web-2] has a failed check. *)
Definition web1 : CatalogService.t :=
  instance "web" "web-1" "10.0.0.7" 8080 ["urlprefix-/foo"; "v1"].
Definition web2 : CatalogService.t :=
  instance "web" "web-2" "" 8081 ["urlprefix-/foo"].
Definition webChecks : list HealthCheck.t :=
  [check "web" "web-1" "passing"; check "web" "web-2" "passing";
   check "web" "web-2" "critical"].

(** The functions of the watcher on a Linux host, with the tag parser and
    the health filter of the design document. *)
Definition serviceConfig :=
  consul.serviceConfig (W:=World) "linux" unicodeIsPrint design.parseURLPrefixTag.
Definition sortedConfig :=
  consul.sortedConfig (W:=World) "linux" unicodeIsPrint mapiterinit
    design.parseURLPrefixTag.
Definition servicesConfig :=
  consul.servicesConfig (W:=World) "linux" unicodeIsPrint mapiterinit
    design.parseURLPrefixTag.
Definition watchIteration :=
  consul.watchIteration (W:=World) "linux" unicodeIsPrint mapiterinit
    design.parseURLPrefixTag design.passingServices.

(** The lines these instances give. *)
Definition webLine : string :=
  "route add web /foo http://10.0.0.7:8080/ tags "
    +:+ dquote +:+ "urlprefix-/foo,v1" +:+ dquote.
Definition twiceLine : string :=
  "route add web / http://10.0.0.1:8080/ tags "
    +:+ dquote +:+ "urlprefix-/,urlprefix-/" +:+ dquote.
Definition quotedLine : string :=
  "route add web / http://10.0.0.1:8080/ tags "
    +:+ dquote +:+ "urlprefix-/,motd=" +:+ backslash +:+ dquote +:+ "hi"
    +:+ backslash +:+ dquote +:+ dquote.

(** *** A dispatcher *)

(** The shutdown gate and the clock. *)
Definition ProxyWorld : Type := (bool * Z)%type.

Definition ShuttingDown (w : ProxyWorld) : bool := w.1.

Definition backend : proxy.Target :=
  {| proxy.target_URL := "http://10.0.0.7:8080/";
     proxy.Timer := "web.example_com./.10_0_0_7_8080" |}.

(** A route table of one entry: everything for [example.com] goes to one
    backend. *)
Definition target (r : proxy.Request) (w : ProxyWorld)
    : option proxy.Target * ProxyWorld :=
  (if String.eqb (proxy.Host r) "example.com"
   then Some backend else None, w).

Definition Now (w : ProxyWorld) : Z * ProxyWorld := (w.2, (w.1, (w.2 + 1)%Z)).

Definition ServeHTTP :=
  proxy.ServeHTTP ShuttingDown target design.addHeaders Now.

Definition request (host remote : string) (h : proxy.Header) : proxy.Request :=
  {| proxy.Method := "GET"; proxy.Host := host; proxy.URL := "/stream";
     proxy.RemoteAddr := remote; proxy.TLS := false; proxy.header := h |}.

(** A request that asks for both an upgrade and an event stream, and one
    whose header values only resemble those the dispatcher looks for. *)
Definition both : proxy.Request :=
  request "example.com" "192.0.2.1:4711"
    (<[ "Upgrade" := ["websocket"] ]> {[ "Accept" := ["text/event-stream"] ]}).
Definition lookalike : proxy.Request :=
  request "example.com" "192.0.2.1:4711"
    (<[ "Upgrade" := ["WebSocket"] ]> {[ "Accept" := ["text/event-stream, */*"] ]}).

Definition fabio : proxy.Proxy :=
  {| proxy.tr := "http.DefaultTransport";
     proxy.cfg :=
       {| proxy.Strategy := "rr"; proxy.Matcher := "prefix";
          proxy.NoRouteStatus := 404%Z; proxy.MaxConn := 10000%Z;
          proxy.ShutdownWait := 0%Z; proxy.DialTimeout := 30000000000%Z;
          proxy.ResponseHeaderTimeout := 0%Z; proxy.KeepAliveTimeout := 0%Z;
          proxy.ReadTimeout := 0%Z; proxy.WriteTimeout := 0%Z;
          proxy.FlushInterval := 1000000000%Z; proxy.LocalIP := "10.0.0.2";
          proxy.ClientIPHeader := ""; proxy.TLSHeader := "";
          proxy.TLSHeaderValue := "" |};
     proxy.requests := "requests" |}.

(** The same proxy, configured to put the client IP into a header named
    Upgrade. *)
Definition shadowing : proxy.Proxy :=
  {| proxy.tr := proxy.tr fabio;
     proxy.cfg :=
       {| proxy.Strategy := "rr"; proxy.Matcher := "prefix";
          proxy.NoRouteStatus := 404%Z; proxy.MaxConn := 10000%Z;
          proxy.ShutdownWait := 0%Z; proxy.DialTimeout := 30000000000%Z;
          proxy.ResponseHeaderTimeout := 0%Z; proxy.KeepAliveTimeout := 0%Z;
          proxy.ReadTimeout := 0%Z; proxy.WriteTimeout := 0%Z;
          proxy.FlushInterval := 1000000000%Z; proxy.LocalIP := "10.0.0.2";
          proxy.ClientIPHeader := "Upgrade"; proxy.TLSHeader := "";
          proxy.TLSHeaderValue := "" |};
     proxy.requests := "requests" |}.

(** The request as the header injection of [fabio] leaves it. *)
Definition injected (r : proxy.Request) : proxy.Request :=
  match design.addHeaders r (proxy.cfg fabio) with
  | inr r' => r'
  | inl _ => r
  end.

End sample.

(** ** The loops of the watcher, written as lists

    What the loops of [serviceConfig] and [servicesConfig] collect, said
    without accumulators; the properties below relate the two. *)

Module shape.
Import golib effects api.

Section lines.
Context {W : Type} (GOOS : string) (unicodeIsPrint : N -> bool).
Context (parseURLPrefixTag :
           string -> string -> gmap string string -> option (string * string)).

(** The lines of the tags of [svc] that parse, in the order of the tags. *)
Definition tagLines (svc : CatalogService.t) (tagPrefix dc : string)
    : list string :=
  omap
    (fun tag =>
       (fun hp : string * string =>
          consul.routeLine GOOS unicodeIsPrint svc hp.1 hp.2)
       <$> parseURLPrefixTag tag tagPrefix {[ "DC" := dc ]})
    (CatalogService.ServiceTags svc).

(** The lines of the instances of [svcs] whose ID is a key of [passing],
    in the order of [svcs]. *)
Definition instanceLines (passing : gmap string bool) (tagPrefix dc : string)
    (svcs : list CatalogService.t) : list string :=
  svcs ≫= fun svc =>
    match passing !! CatalogService.ServiceID svc with
    | Some _ => tagLines svc tagPrefix dc
    | None => []
    end.

(** The lines of a list of catalog answers, one answer per datacenter. *)
Definition readsLines (passing : gmap string bool) (tagPrefix : string)
    (reads : list (string * list CatalogService.t)) : list string :=
  reads ≫= fun '(dc, svcs) => instanceLines passing tagPrefix dc svcs.

(** The catalog reads of one service, one per datacenter in the order of
    [dcs], each on the world the one before left; [None] when one of them
    fails. *)
Fixpoint catalogReads (client : Client W) (name : string) (dcs : list string)
    (w : W) : option (list (string * list CatalogService.t)) :=
  match dcs with
  | [] => Some []
  | dc :: dcs' =>
    match Catalog_Service client name ""
            {| Datacenter := dc; RequireConsistent := true; WaitIndex := 0 |} w
    with
    | (Ok svcs, w1) => cons (dc, svcs) <$> catalogReads client name dcs' w1
    | (Err _, _) => None
    end
  end.

(** A catalog whose answers do not depend on the moment of the call:
    [dcs] is what [Catalog().Datacenters()] answers and [svcsOf name dc]
    what [Catalog().Service(name, "", ...)] answers for datacenter [dc]. *)
Definition Stateless (client : Client W) (dcs : result (list string))
    (svcsOf : string -> string -> result (list CatalogService.t)) : Prop :=
  (∀ w, (Catalog_Datacenters client w).1 = dcs)
  ∧ (∀ name dc w,
       (Catalog_Service client name ""
          {| Datacenter := dc; RequireConsistent := true; WaitIndex := 0 |} w).1
       = svcsOf name dc).

(** The answers of such a catalog for the datacenters [dcs]; [None] when
    one of them is an error. *)
Fixpoint statelessReads
    (svcsOf : string -> string -> result (list CatalogService.t))
    (name : string) (dcs : list string)
    : option (list (string * list CatalogService.t)) :=
  match dcs with
  | [] => Some []
  | dc :: dcs' =>
    match svcsOf name dc with
    | Ok svcs => cons (dc, svcs) <$> statelessReads svcsOf name dcs'
    | Err _ => None
    end
  end.

(** The lines of one service on such a catalog. *)
Definition serviceLines (dcs : result (list string))
    (svcsOf : string -> string -> result (list CatalogService.t))
    (tagPrefix name : string) (passing : gmap string bool) : list string :=
  if String.eqb name "" || (size passing =? 0)%nat then []
  else
    match dcs with
    | Err _ => []
    | Ok dcs =>
      match statelessReads svcsOf name dcs with
      | Some reads => readsLines passing tagPrefix reads
      | None => []
      end
    end.

End lines.

(** The pauses of a trace, and its warnings about a health read that
    failed. *)
Definition sleeps (t : list consul.Event) : list Z :=
  omap (fun e => match e with consul.TimeSleep d => Some d | _ => None end) t.

Definition fetchErrors (t : list consul.Event) : list string :=
  omap
    (fun e =>
       match e with
       | consul.LogPrintf line =>
         if HasPrefix line "[WARN] consul: Error fetching health state. "
         then Some line else None
       | _ => None
       end)
    t.

(** Whether an event is a line of the log. *)
Definition isLog (e : consul.Event) : bool :=
  match e with consul.LogPrintf _ => true | _ => false end.

(** The events by which the dispatcher answers a request: an error of its
    own, a bare status, or the call of a handler. *)
Definition isAnswer (e : proxy.Event) : bool :=
  match e with
  | proxy.http_Error _ _ | proxy.WriteHeader _
  | proxy.Handler_ServeHTTP _ _ => true
  | _ => false
  end.

Definition answers (t : list proxy.Event) : list proxy.Event :=
  List.filter isAnswer t.

End shape.

(** ** More of the sample deployment *)

Module cases.
Import golib effects api.

(** An agent whose catalog is down: the health reads are answered, the
    catalog calls fail. *)
Definition outage : Client sample.World :=
  {| Health_State := Health_State (sample.agent 0 sample.webChecks []);
     Catalog_Datacenters w := (Err "No cluster leader", S w);
     Catalog_Service _ _ _ w := (Err "No cluster leader", S w) |}.

(** An agent cut off from the second datacenter: the catalog knows both
    datacenters, the reads of the health state and of the catalog of
    [dc2] fail, those of [dc1] are answered. *)
Definition partitioned : Client sample.World :=
  {| Health_State :=
       Health_State (sample.agent 0 sample.webChecks [sample.web1; sample.web2]);
     Catalog_Datacenters w := (Ok ["dc1"; "dc2"], S w);
     Catalog_Service name _ q w :=
       if String.eqb (Datacenter q) "dc1"
       then (Ok (filter (fun svc => CatalogService.ServiceName svc = name)
                   [sample.web1; sample.web2]), S w)
       else (Err "no path to datacenter", S w) |}.

(** The check of a node: it names no service. *)
Definition serfHealth : HealthCheck.t :=
  {| HealthCheck.Node := "node1"; HealthCheck.CheckID := "serfHealth";
     HealthCheck.Status := "passing"; HealthCheck.ServiceID := "";
     HealthCheck.ServiceName := "" |}.

(** What the catalog of [sample.agent] answers for a service. *)
Definition listing (svcs : list CatalogService.t) (name dc : string)
    : list CatalogService.t :=
  filter (fun svc => CatalogService.ServiceName svc = name) svcs.

(** A second service, its check beside that of [sample.web1], and a
    runtime that walks maps from another slot. *)
Definition api1 : CatalogService.t :=
  sample.instance "api" "api-1" "10.0.0.9" 9090 ["urlprefix-/api"].
Definition twoChecks : list HealthCheck.t :=
  [sample.check "web" "web-1" "passing"; sample.check "api" "api-1" "passing"].
Definition mapiterinit' (w : sample.World) : list nat := [S w].

(** A request for an event stream, and the sample proxy with periodic
    flushing switched off. *)
Definition stream : proxy.Request :=
  sample.request "example.com" "192.0.2.1:4711"
    {[ "Accept" := ["text/event-stream"] ]}.

Definition unflushed : proxy.Proxy :=
  {| proxy.tr := proxy.tr sample.fabio;
     proxy.cfg :=
       {| proxy.Strategy := "rr"; proxy.Matcher := "prefix";
          proxy.NoRouteStatus := 404%Z; proxy.MaxConn := 10000%Z;
          proxy.ShutdownWait := 0%Z; proxy.DialTimeout := 30000000000%Z;
          proxy.ResponseHeaderTimeout := 0%Z; proxy.KeepAliveTimeout := 0%Z;
          proxy.ReadTimeout := 0%Z; proxy.WriteTimeout := 0%Z;
          proxy.FlushInterval := 0%Z; proxy.LocalIP := "10.0.0.2";
          proxy.ClientIPHeader := ""; proxy.TLSHeader := "";
          proxy.TLSHeaderValue := "" |};
     proxy.requests := "requests" |}.

End cases.

(** * Properties *)

(** ** Facts about the Go library functions *)

Module golib_facts.
Import golib.

#[local] Arguments String.append !_ _ / : simpl nomatch.

Lemma rangeOrder_Permutation {A} (seed : list nat) (l : list A) :
  rangeOrder seed l ≡ₚ l.
Proof.
  revert l. induction seed as [|n seed IH]; intros l; simpl; [done|].
  destruct (l !! (n mod length l)%nat) as [x|] eqn:Hx; [|done].
  rewrite IH. symmetry. by apply delete_Permutation.
Qed.

#[global] Instance string_ge_total : Total string_ge.
Proof. intros x y. unfold string_ge, flip. destruct (total String.le x y); auto. Qed.

#[global] Instance string_ge_trans : Transitive string_ge.
Proof. intros x y z ??. unfold string_ge, flip in *. by etrans. Qed.

#[global] Instance string_ge_antisymm : AntiSymm (=) string_ge.
Proof. intros x y ??. unfold string_ge, flip in *. by apply (anti_symm String.le). Qed.

Lemma SortReverse_sorted (a : list string) : StronglySorted string_ge (SortReverse a).
Proof. apply StronglySorted_merge_sort; apply _. Qed.

Lemma SortReverse_Permutation (a : list string) : SortReverse a ≡ₚ a.
Proof. apply merge_sort_Permutation. Qed.

(** Whatever algorithm sorts [a] in descending order returns [SortReverse a]. *)
Lemma SortReverse_unique (a b : list string) :
  b ≡ₚ a → Sorted string_ge b → b = SortReverse a.
Proof.
  intros Hp Hs. apply (Sorted_unique string_ge); [done| |].
  - apply Sorted_merge_sort. apply _.
  - by rewrite SortReverse_Permutation.
Qed.

Lemma append_assoc (a b c : string) : (a +:+ b) +:+ c = a +:+ (b +:+ c).
Proof. induction a; simpl; f_equal; auto. Qed.

Lemma append_nil_r (a : string) : a +:+ "" = a.
Proof. induction a; simpl; f_equal; auto. Qed.

Lemma prefix_app (p s : string) :
  String.prefix p s = true ↔ ∃ post, s = p +:+ post.
Proof.
  revert s. induction p as [|c p IH]; intros s; simpl.
  - destruct s; split; eauto.
  - destruct s as [|d s]; simpl.
    + split; [done|]. by intros [? ?].
    + destruct (ascii_dec c d) as [->|Hne].
      * rewrite IH. split; intros [post Hpost]; exists post; simplify_eq/=; done.
      * split; [done|]. intros [? ?]. simplify_eq.
Qed.

Lemma Contains_app (s sub : string) :
  Contains s sub = true ↔ ∃ pre post, s = pre +:+ sub +:+ post.
Proof.
  induction s as [|c s IH]; cbn [Contains].
  - rewrite orb_false_r, prefix_app. split.
    + intros [post ->]. by exists "", post.
    + intros (pre & post & H). destruct pre; simpl in H; [eauto|done].
  - rewrite orb_true_iff, prefix_app, IH. split.
    + intros [[post ->]|(pre & post & ->)].
      * by exists "", post.
      * by exists (String c pre), post.
    + intros (pre & post & H). destruct pre as [|d pre]; simpl in H.
      * left. eauto.
      * right. simplify_eq. eauto.
Qed.

Lemma substring_app_r (pre suf : string) :
  String.substring (String.length pre) (String.length suf) (pre +:+ suf) = suf.
Proof.
  induction pre as [|c pre IH]; simpl; [|done].
  induction suf as [|d suf IH]; simpl; [done|]. by rewrite IH.
Qed.

Lemma length_app (a b : string) :
  String.length (a +:+ b) = (String.length a + String.length b)%nat.
Proof. induction a; simpl; auto. Qed.

Lemma substring_split (n : nat) (s : string) :
  (n <= String.length s)%nat →
  ∃ pre, s = pre +:+ String.substring n (String.length s - n) s ∧ String.length pre = n.
Proof.
  revert s. induction n as [|n IH]; intros s Hn.
  - exists "". split; [|done]. simpl. rewrite Nat.sub_0_r.
    clear Hn. induction s as [|c s IHs]; simpl; [done|]. by rewrite <-IHs.
  - destruct s as [|c s]; simpl in *; [lia|].
    destruct (IH s) as (pre & Hpre & Hlen); [lia|].
    exists (String c pre). simpl. split; [by f_equal|by f_equal].
Qed.

Lemma HasSuffix_app (s suf : string) :
  HasSuffix s suf = true ↔ ∃ pre, s = pre +:+ suf.
Proof.
  unfold HasSuffix. rewrite andb_true_iff, Nat.leb_le, String.eqb_eq. split.
  - intros [Hlen Heq].
    destruct (substring_split (String.length s - String.length suf) s) as (pre & Hs & _); [lia|].
    replace (String.length s - (String.length s - String.length suf))%nat
      with (String.length suf) in Hs by lia.
    rewrite Heq in Hs. eauto.
  - intros [pre ->]. rewrite length_app.
    replace (String.length pre + String.length suf - String.length suf)%nat
      with (String.length pre) by lia.
    split; [lia|apply substring_app_r].
Qed.

Lemma quoteLoop_plain (unicodeIsPrint : N → bool) (s : string) :
  design.plain s → quoteLoop unicodeIsPrint 0 s = s.
Proof.
  induction s as [|c s IH]; [done|]. intros [(Hrange & Hq & Hb) Hs].
  cbn [quoteLoop DecodeRuneInString].
  assert ((N_of_ascii c <? 128)%N = true) as -> by (apply N.ltb_lt; lia).
  assert ((N_of_ascii c =? RuneError)%N = false) as ->
    by (apply N.eqb_neq; unfold RuneError; lia).
  rewrite andb_false_r. unfold appendEscapedRune, IsPrint, between.
  assert ((N_of_ascii c =? 34)%N = false) as -> by (by apply N.eqb_neq).
  assert ((N_of_ascii c =? 92)%N = false) as -> by (by apply N.eqb_neq).
  assert ((N_of_ascii c <=? 255)%N = true) as -> by (apply N.leb_le; lia).
  assert ((32 <=? N_of_ascii c)%N = true) as -> by (apply N.leb_le; lia).
  assert ((N_of_ascii c <=? 126)%N = true) as -> by (apply N.leb_le; lia).
  simpl. rewrite IH by done. by destruct s.
Qed.

(** On printable ASCII without double quote and backslash, [%q] only adds
    the surrounding quotes. *)
Lemma Quote_plain (unicodeIsPrint : N → bool) (s : string) :
  design.plain s → Quote unicodeIsPrint s = dquote +:+ s +:+ dquote.
Proof. intros Hs. unfold Quote. by rewrite quoteLoop_plain. Qed.

(** *** What [%q] escapes *)

Import design.

Lemma hexdigit_length (n : N) : (n < 16)%N → String.length (hexdigit n) = 1%nat.
Proof.
  intros Hn. unfold hexdigit.
  assert (N.to_nat n < 16)%nat as H by lia.
  revert H. generalize (N.to_nat n). intros m H.
  do 16 (destruct m as [|m]; [reflexivity|]). lia.
Qed.

Lemma hex_length (k : nat) (n : N) : String.length (hex k n) = k.
Proof.
  revert n. induction k as [|k IH]; intros n; [done|].
  cbn [hex]. rewrite length_app, IH, hexdigit_length; [lia|].
  apply N.mod_lt. done.
Qed.

Lemma substring_length (w : nat) (s : string) :
  (w <= String.length s)%nat → String.length (String.substring 0 w s) = w.
Proof.
  revert s. induction w as [|w IH]; intros s Hw.
  - by destruct s.
  - destruct s as [|c s]; simpl in *; [lia|]. rewrite IH; [done|lia].
Qed.

Lemma land_7 (b : N) : N.land b 7 = (b mod 8)%N.
Proof. exact (N.land_ones b 3). Qed.
Lemma land_15 (b : N) : N.land b 15 = (b mod 16)%N.
Proof. exact (N.land_ones b 4). Qed.
Lemma land_31 (b : N) : N.land b 31 = (b mod 32)%N.
Proof. exact (N.land_ones b 5). Qed.
Lemma land_63 (b : N) : N.land b 63 = (b mod 64)%N.
Proof. exact (N.land_ones b 6). Qed.

Ltac bounds :=
  unfold between in *;
  repeat match goal with
  | H : (_ && _) = true |- _ => apply andb_true_iff in H as [? ?]
  | H : (_ || _) = false |- _ => apply orb_false_iff in H as [? ?]
  | H : (_ || _) = true |- _ => apply orb_true_iff in H as [?|?]
  | H : (_ && _) = false |- _ => apply andb_false_iff in H as [?|?]
  | H : (_ <=? _)%N = true |- _ => apply N.leb_le in H
  | H : (_ <=? _)%N = false |- _ => apply N.leb_gt in H
  | H : (_ <? _)%N = true |- _ => apply N.ltb_lt in H
  | H : (_ <? _)%N = false |- _ => apply N.ltb_ge in H
  | H : (_ =? _)%N = true |- _ => apply N.eqb_eq in H
  | H : (_ =? _)%N = false |- _ => apply N.eqb_neq in H
  end.

Lemma small_lor (a b : N) :
  (N.lor a b < 128)%N → N.shiftr a 7 = 0%N ∧ N.shiftr b 7 = 0%N.
Proof.
  intros H. apply N.lor_eq_0_iff. rewrite <-N.shiftr_lor, N.shiftr_div_pow2.
  by apply N.div_small.
Qed.

Lemma shiftl_small (x k : N) :
  (7 <= k)%N → N.shiftr (N.shiftl x k) 7 = 0%N → x = 0%N.
Proof.
  intros Hk. rewrite N.shiftr_shiftl_l by done. apply N.shiftl_eq_0_iff.
Qed.

Lemma shiftl_6_small (x : N) :
  N.shiftr (N.shiftl x 6) 7 = 0%N → (x < 2)%N.
Proof.
  rewrite N.shiftr_shiftl_r by done. rewrite N.shiftr_div_pow2.
  intros H. by apply N.div_small_iff in H.
Qed.

Ltac euclid :=
  repeat match goal with
  | H : context [(?b mod ?m)%N] |- _ =>
    let q := fresh "q" in
    let r := fresh "r" in
    pose proof (N.div_mod' b m);
    pose proof (N.mod_lt b m ltac:(done));
    generalize dependent (b / m)%N; intros q;
    generalize dependent (b mod m)%N; intros r; intros
  end.

(** The width of a rune is between one and four; the bytes after the
    first are continuation bytes; an ASCII byte is a rune of its own; no
    rune of more than one byte is below 128. *)
Lemma DecodeRuneInString_width (c : ascii) (s : string) (r : N) (w : nat) :
  DecodeRuneInString (String c s) = (r, w) →
  (1 <= w <= 4)%nat
  ∧ continuation (w - 1) s
  ∧ ((N_of_ascii c < 128)%N → r = N_of_ascii c ∧ w = 1%nat)
  ∧ (w = 1%nat ∨ (128 <= r)%N).
Proof.
  unfold DecodeRuneInString.
  destruct (N_of_ascii c <? 128)%N eqn:H0.
  { intros [= <- <-]. split_and!; simpl; auto; lia. }
  apply N.ltb_ge in H0.
  assert (∀ P : Prop, (N_of_ascii c < 128)%N → P) as Hno by (intros; lia).
  repeat first
    [ match goal with
      | |- context [if ?b then _ else _] => destruct b eqn:?
      end
    | match goal with
      | |- context [match ?x with EmptyString => _ | String _ _ => _ end] =>
        destruct x
      end ];
    intros [= <- <-]; (split; [lia|]); (split; [|split; [apply Hno|]]);
    try (simpl; auto; fail); try (by left).
  all: bounds.
  all: try (simpl; split_and!; auto; lia).
  all: right; apply N.le_ngt; intros Hlt; apply small_lor in Hlt as [Ha Hb].
  all: first [apply shiftl_6_small in Ha | apply shiftl_small in Ha; [|lia]].
  all: try (rewrite N.shiftr_lor in Hb; apply N.lor_eq_0_l in Hb;
            first [apply shiftl_6_small in Hb | apply shiftl_small in Hb; [|lia]]).
  all: rewrite ?land_7, ?land_15, ?land_31, ?land_63 in *.
  all: clear Hno; euclid; lia.
Qed.

Lemma continuation_length (k : nat) (s : string) :
  continuation k s → (k <= String.length s)%nat.
Proof.
  revert s. induction k as [|k IH]; intros s; simpl; [lia|].
  destruct s as [|c s]; [done|]. intros [_ H%IH]. simpl. lia.
Qed.

Section Quote.
Variable unicodeIsPrint : N → bool.

Lemma IsPrint_control (r : N) :
  (r < 32)%N ∨ r = 127%N → IsPrint unicodeIsPrint r = false.
Proof.
  intros Hr. unfold IsPrint.
  repeat match goal with
         | |- context [if ?b then _ else _] => destruct b eqn:?
         end; bounds; try done; lia.
Qed.

(** [appendEscapedRune] leaves a rune as it is exactly when it is
    printable and neither the double quote nor the backslash; every
    escape is longer than the bytes it stands for. *)
Lemma appendEscapedRune_cases (r : N) (enc : string) :
  (String.length enc <= 4)%nat →
  String.length enc = 1%nat ∨ (128 <= r)%N →
  (r ≠ 34%N ∧ r ≠ 92%N ∧ IsPrint unicodeIsPrint r = true
   ∧ appendEscapedRune unicodeIsPrint r enc = enc)
  ∨ ((r = 34%N ∨ r = 92%N ∨ IsPrint unicodeIsPrint r = false)
     ∧ (String.length enc
        < String.length (appendEscapedRune unicodeIsPrint r enc))%nat).
Proof.
  intros Hlen Hr. unfold appendEscapedRune.
  destruct ((r =? 34)%N || (r =? 92)%N) eqn:Hq.
  { right. rewrite length_app. simpl. split; [|lia].
    apply orb_true_iff in Hq as [?%N.eqb_eq|?%N.eqb_eq]; auto. }
  apply orb_false_iff in Hq as [Hq Hb]. bounds.
  destruct (IsPrint unicodeIsPrint r) eqn:Hp; [by left|].
  right. split; [auto|].
  repeat match goal with
         | |- context [if ?b then _ else _] => destruct b eqn:?
         end; bounds;
    rewrite ?length_app, ?hex_length; simpl; lia.
Qed.

Lemma quoteLoop_skip (pre rest : string) :
  quoteLoop unicodeIsPrint (String.length pre) (pre +:+ rest)
  = quoteLoop unicodeIsPrint 0 rest.
Proof.
  induction pre as [|c pre IH]; [done|]. simpl.
  destruct (pre +:+ rest) eqn:Heq; [|done].
  destruct pre; [|done]. simpl in *. by subst.
Qed.

Lemma substring_app_l (pre rest : string) :
  String.substring 0 (String.length pre) (pre +:+ rest) = pre.
Proof.
  induction pre as [|c pre IH]; simpl; [by destruct rest|]. by rewrite IH.
Qed.

(** What [%q] prints for such a string is the string. *)
Lemma quoteLoop_unescaped (s : string) :
  unescaped unicodeIsPrint s → quoteLoop unicodeIsPrint 0 s = s.
Proof.
  induction 1 as [|r enc rest Hd Herr H34 H92 Hp Hrest IH]; [done|].
  destruct enc as [|c enc].
  { simpl in *. done. }
  change (String c enc +:+ rest) with (String c (enc +:+ rest)) in *.
  cbn [quoteLoop]. rewrite Hd.
  assert (((String.length (String c enc) =? 1)%nat && (r =? RuneError)%N) = false)
    as ->.
  { apply andb_false_iff.
    destruct (Nat.eqb_spec (String.length (String c enc)) 1) as [Hw|?]; [|by left].
    right. apply N.eqb_neq. intros ->. by apply Herr. }
  change (String c (enc +:+ rest)) with (String c enc +:+ rest).
  rewrite substring_app_l. unfold appendEscapedRune.
  apply N.eqb_neq in H34, H92. rewrite H34, H92, Hp. cbn [orb].
  cbn [String.length]. replace (S (String.length enc) - 1)%nat
    with (String.length enc) by lia.
  change (String c enc +:+ rest) with (String c (enc +:+ rest)).
  by rewrite quoteLoop_skip, IH.
Qed.

(** What [%q] prints between the quotes is never shorter than the
    string; it is longer when the string holds a double quote, a
    backslash or a control character of ASCII; and when it is as long,
    the string is printed as it is. *)
Lemma quoteLoop_length (s : string) (skip : nat) :
  continuation skip s →
  (String.length s <= skip + String.length (quoteLoop unicodeIsPrint skip s))%nat
  ∧ (needsEscape s →
     (String.length s < skip + String.length (quoteLoop unicodeIsPrint skip s))%nat)
  ∧ ((skip + String.length (quoteLoop unicodeIsPrint skip s) <= String.length s)%nat →
     ∃ pre rest, s = pre +:+ rest ∧ String.length pre = skip
                 ∧ unescaped unicodeIsPrint rest).
Proof.
  revert skip. induction s as [|c s IH]; intros skip Hskip.
  { destruct skip; simpl in *; [|done]. split_and!; [lia|done|].
    intros _. exists "", "". split_and!; [done..|constructor]. }
  destruct skip as [|k].
  - cbn [quoteLoop].
    destruct (DecodeRuneInString (String c s)) as [r w] eqn:Hd.
    pose proof Hd as Hd'.
    apply DecodeRuneInString_width in Hd as (Hw & Hcont & Hascii & Hr).
    destruct (IH (w - 1)%nat Hcont) as (IH1 & IH2 & IH3).
    pose proof (continuation_length _ _ Hcont) as Hlen.
    assert (String.length (String.substring 0 w (String c s)) = w) as Henc
      by (apply substring_length; simpl; lia).
    rewrite length_app. cbn [String.length].
    destruct ((w =? 1)%nat && (r =? RuneError)%N) eqn:Herr.
    + apply andb_true_iff in Herr as [->%Nat.eqb_eq ->%N.eqb_eq].
      change (1 - 1)%nat with 0%nat in *.
      rewrite !length_app, hex_length. simpl.
      split_and!; [lia|intros _; lia|intros; lia].
    + destruct (appendEscapedRune_cases r (String.substring 0 w (String c s)))
        as [(H34 & H92 & Hp & ->)|[Hesc Hout]]; [lia|rewrite Henc; lia|..];
        rewrite Henc in *.
      * split_and!; [lia| |].
        -- intros [Hc|Hs]; [|specialize (IH2 Hs); lia].
           assert ((N_of_ascii c < 128)%N) as Hlt
             by (unfold escapedByte in Hc; lia).
           destruct (Hascii Hlt) as [-> ->].
           destruct Hc as [?|[?|Hc]]; [done..|].
           by rewrite (IsPrint_control _ Hc) in Hp.
        -- intros Hle. destruct IH3 as (pre & rest & -> & Hpre & Hrest); [lia|].
           exists "", (String c pre +:+ rest). split_and!; [done..|].
           assert (w = String.length (String c pre)) as Hw' by (simpl; lia).
           rewrite Hw' in Hd', Herr.
           apply unescaped_rune with (r := r); try done.
           intros [Hone ->]. rewrite Hone in Herr. simpl in Herr. done.
      * split_and!; [lia|intros _; lia|intros; lia].
  - destruct Hskip as [Hc Hk]. cbn [quoteLoop String.length].
    destruct (IH k Hk) as (IH1 & IH2 & IH3). split_and!; [lia| |].
    + intros [Hesc|Hs]; [unfold escapedByte in Hesc; lia|].
      specialize (IH2 Hs). lia.
    + intros Hle. destruct IH3 as (pre & rest & -> & Hpre & Hrest); [lia|].
      exists (String c pre), rest. split_and!; [done|simpl; lia|done].
Qed.

(** [%q] prints a string as it is between double quotes exactly when the
    string is well-formed and holds nothing to escape. *)
Lemma Quote_unescaped (s : string) :
  unescaped unicodeIsPrint s → Quote unicodeIsPrint s = dquote +:+ s +:+ dquote.
Proof. intros Hs. unfold Quote. by rewrite quoteLoop_unescaped. Qed.

Lemma Quote_length_unescaped (s : string) :
  (String.length (Quote unicodeIsPrint s)
   <= String.length (dquote +:+ s +:+ dquote))%nat →
  unescaped unicodeIsPrint s.
Proof.
  unfold Quote. rewrite !length_app. intros Hle.
  destruct (quoteLoop_length s 0%nat I) as (_ & _ & H).
  destruct H as (pre & rest & -> & Hpre & Hrest); [lia|].
  by destruct pre.
Qed.

(** A string that holds a double quote, a backslash or a control
    character of ASCII is printed longer than it is between double
    quotes. *)
Lemma Quote_needsEscape (s : string) :
  needsEscape s →
  (String.length (dquote +:+ s +:+ dquote)
   < String.length (Quote unicodeIsPrint s))%nat.
Proof.
  intros Hs. unfold Quote. rewrite !length_app.
  destruct (quoteLoop_length s 0%nat I) as (_ & H & _). specialize (H Hs). lia.
Qed.
End Quote.

End golib_facts.

(** ** The catalog reader and the document *)

Module consul_facts.
Import golib effects api consul design golib_facts.

Ltac run :=
  simpl in *;
  unfold mbind, M_bind, mret, M_ret, call, emit, peek, Printf,
    value, world, trace in *;
  simpl in *.

Section service.
Context {W : Type}.
Variable GOOS : string.
Variable unicodeIsPrint : N -> bool.
Variable mapiterinit : W -> list nat.
Variable parseURLPrefixTag :
  string -> string -> gmap string string -> option (string * string).
Variable passingServices :
  list HealthCheck.t -> list string -> list HealthCheck.t.
Variable client : Client W.

Local Abbreviation routeLine := (routeLine GOOS unicodeIsPrint).
Local Abbreviation rangeTags := (rangeTags GOOS unicodeIsPrint parseURLPrefixTag).
Local Abbreviation rangeSvcs := (rangeSvcs GOOS unicodeIsPrint parseURLPrefixTag).
Local Abbreviation rangeDatacenters :=
  (rangeDatacenters GOOS unicodeIsPrint parseURLPrefixTag client).
Local Abbreviation serviceConfig :=
  (serviceConfig GOOS unicodeIsPrint parseURLPrefixTag client).
Local Abbreviation rangeServices :=
  (rangeServices GOOS unicodeIsPrint parseURLPrefixTag client).
Local Abbreviation collectConfig :=
  (collectConfig GOOS unicodeIsPrint mapiterinit parseURLPrefixTag client).
Local Abbreviation sortedConfig :=
  (sortedConfig GOOS unicodeIsPrint mapiterinit parseURLPrefixTag client).
Local Abbreviation servicesConfig :=
  (servicesConfig GOOS unicodeIsPrint mapiterinit parseURLPrefixTag client).
Local Abbreviation lineOf := (lineOf GOOS unicodeIsPrint parseURLPrefixTag).
Local Abbreviation listed := (listed client).
Local Abbreviation fromPassing :=
  (fromPassing GOOS unicodeIsPrint parseURLPrefixTag client).

Lemma rangeTags_elem svc tagPrefix env tags config line :
  line ∈ rangeTags svc tagPrefix env tags config ↔
  line ∈ config ∨
  ∃ tag host path,
    tag ∈ tags ∧ parseURLPrefixTag tag tagPrefix env = Some (host, path)
    ∧ line = routeLine svc host path.
Proof.
  revert config. induction tags as [|tag tags IH]; intros config; simpl.
  - split; [auto|]. intros [?|(?&?&?&?%elem_of_nil&_)]; done.
  - destruct (parseURLPrefixTag tag tagPrefix env) as [[host path]|] eqn:Hp;
      rewrite IH; [rewrite elem_of_app, list_elem_of_singleton|].
    + split.
      * intros [[?| ->]|(tag'&h&p&?&?&?)]; [by left| |].
        -- right. exists tag, host, path. rewrite elem_of_cons; auto.
        -- right. exists tag', h, p. rewrite elem_of_cons; auto.
      * intros [?|(tag'&h&p&[-> |?]%elem_of_cons&?&?)]; [by auto| |].
        -- left. right. congruence.
        -- right. by exists tag', h, p.
    + split.
      * intros [?|(tag'&h&p&?&?&?)]; [by left|right].
        exists tag', h, p. by rewrite elem_of_cons; auto.
      * intros [?|(tag'&h&p&[-> |?]%elem_of_cons&?&?)]; [by auto|congruence|].
        right. by exists tag', h, p.
Qed.

Lemma rangeSvcs_elem passing tagPrefix dc svcs config line :
  line ∈ rangeSvcs passing tagPrefix {[ "DC" := dc ]} svcs config →
  line ∈ config ∨
  ∃ svc, svc ∈ svcs ∧ is_Some (passing !! CatalogService.ServiceID svc)
         ∧ lineOf tagPrefix dc svc line.
Proof.
  revert config. induction svcs as [|svc svcs IH]; intros config; simpl; [auto|].
  destruct (passing !! CatalogService.ServiceID svc) as [b|] eqn:Hid.
  - intros [Hin|(svc'&?&?&?)]%IH.
    + apply rangeTags_elem in Hin as [?|Htag]; [by left|right].
      exists svc. rewrite elem_of_cons, Hid. by eauto.
    + right. exists svc'. rewrite elem_of_cons. by eauto.
  - intros [?|(svc'&?&?&?)]%IH; [by left|right].
    exists svc'. rewrite elem_of_cons. by eauto.
Qed.

Lemma rangeDatacenters_elem name passing tagPrefix dcs config w config' line :
  value (rangeDatacenters name passing tagPrefix dcs config w) = Some config' →
  line ∈ config' →
  line ∈ config ∨ fromPassing name passing tagPrefix line.
Proof.
  revert config w. induction dcs as [|dc dcs IH]; intros config w; run.
  - intros [= <-]. auto.
  - match goal with |- context [Catalog_Service client name "" ?q w] =>
      destruct (Catalog_Service client name "" q w) as [[svcs|err] w1] eqn:Hc
    end; run.
    + destruct (rangeDatacenters name passing tagPrefix dcs _ w1)
        as [[r w2] t2] eqn:Hr. run. intros -> Hin.
      eapply (IH _ w1) in Hin; [|by rewrite Hr].
      destruct Hin as [Hin|?]; [|by right].
      apply rangeSvcs_elem in Hin as [?|(svc&?&?&?)]; [by left|right].
      exists dc, svc. split_and!; [|done..]. by exists w, w1, svcs.
    + done.
Qed.

Lemma serviceConfig_elem name passing tagPrefix w line :
  line ∈ value (serviceConfig name passing tagPrefix w) →
  fromPassing name passing tagPrefix line.
Proof.
  unfold consul.serviceConfig.
  destruct (_ || _); run; [by intros ?%elem_of_nil|].
  destruct (Catalog_Datacenters client w) as [[dcs|err] w1]; run;
    [|by intros ?%elem_of_nil].
  destruct (rangeDatacenters name passing tagPrefix dcs [] w1)
    as [[[config|] w2] t2] eqn:Hr; run; [|by intros ?%elem_of_nil].
  intros Hin. eapply rangeDatacenters_elem in Hin as [?%elem_of_nil|?];
    [done|done|by rewrite Hr].
Qed.

Lemma rangeServices_elem tagPrefix entries config w line :
  line ∈ value (rangeServices tagPrefix entries config w) →
  line ∈ config ∨
  ∃ name passing, (name, passing) ∈ entries
                  ∧ fromPassing name passing tagPrefix line.
Proof.
  revert config w. induction entries as [|[name passing] entries IH];
    intros config w; run; [auto|].
  destruct (serviceConfig name passing tagPrefix w) as [[cfg w1] t1] eqn:Hs.
  destruct (rangeServices tagPrefix entries (config ++ cfg) w1)
    as [[r w2] t2] eqn:Hr. run. intros Hin.
  specialize (IH (config ++ cfg) w1). rewrite Hr in IH. run.
  apply IH in Hin as [[?|Hin]%elem_of_app|(n&p&?&?)].
  - by left.
  - right. exists name, passing. rewrite elem_of_cons. split; [by left|].
    apply (serviceConfig_elem _ _ _ w). by rewrite Hs.
  - right. exists n, p. rewrite elem_of_cons. by auto.
Qed.

Lemma collectConfig_elem checks tagPrefix w line :
  line ∈ value (collectConfig checks tagPrefix w) →
  ∃ name passing, passingMap checks !! name = Some passing
                  ∧ fromPassing name passing tagPrefix line.
Proof.
  unfold consul.collectConfig. run.
  destruct (rangeServices tagPrefix _ [] w) as [[r w2] t2] eqn:Hr. run.
  intros Hin.
  pose proof (rangeServices_elem tagPrefix
    (rangeOrder (mapiterinit w) (map_to_list (passingMap checks))) [] w line) as H.
  rewrite Hr in H. run.
  destruct (H Hin) as [?%elem_of_nil|(n&p&Hnp&?)]; [done|].
  exists n, p. split; [|done].
  rewrite rangeOrder_Permutation in Hnp. by apply elem_of_map_to_list.
Qed.

Lemma passingMap_snoc checks c name :
  passingMap (checks ++ [c]) !! name =
  if decide (HealthCheck.ServiceName c = name)
  then Some (<[ HealthCheck.ServiceID c := true ]>
               (default ∅ (passingMap checks !! name)))
  else passingMap checks !! name.
Proof.
  unfold passingMap. rewrite foldl_app. simpl.
  set (m := foldl _ ∅ checks). case_decide as Hn.
  - subst name. destruct (m !! HealthCheck.ServiceName c) as [p|] eqn:Hm.
    + by rewrite lookup_alter_eq, Hm.
    + by rewrite lookup_alter_eq, lookup_insert_eq.
  - rewrite lookup_alter_ne by done.
    destruct (m !! HealthCheck.ServiceName c); [done|].
    by rewrite lookup_insert_ne.
Qed.

(** The passing-set of a service name holds exactly the instance IDs that
    the checks handed in name under that service. *)
Lemma passingMap_spec checks name id :
  (∃ passing, passingMap checks !! name = Some passing ∧ is_Some (passing !! id))
  ↔ ∃ c, c ∈ checks ∧ HealthCheck.ServiceName c = name
         ∧ HealthCheck.ServiceID c = id.
Proof.
  induction checks as [|c checks IH] using rev_ind.
  - split.
    + intros (p & Hp & _). unfold passingMap in Hp. simpl in Hp.
      by rewrite lookup_empty in Hp.
    + intros (c & ?%elem_of_nil & _). done.
  - split.
    + intros (p & Hp & Hid). rewrite passingMap_snoc in Hp.
      case_decide as Hn.
      * simplify_eq. destruct (decide (HealthCheck.ServiceID c = id)) as [<-|Hne].
        -- exists c. rewrite elem_of_app, list_elem_of_singleton. auto.
        -- rewrite lookup_insert_ne in Hid by done.
           destruct (passingMap checks !! HealthCheck.ServiceName c) as [p|] eqn:Hp.
           ++ destruct IH as [IH _]. destruct IH as (c' & ? & ? & ?); [by eauto|].
              exists c'. rewrite elem_of_app. auto.
           ++ simpl in Hid. rewrite lookup_empty in Hid. by destruct Hid.
      * destruct IH as [IH _]. destruct IH as (c' & ? & ? & ?); [by eauto|].
        exists c'. rewrite elem_of_app. auto.
    + intros (c' & [Hin| ->%list_elem_of_singleton]%elem_of_app & Hname & Hid).
      * destruct IH as [_ IH]. destruct IH as (p & Hp & Hp'); [by eauto|].
        rewrite passingMap_snoc. case_decide.
        -- eexists. split; [done|]. rewrite Hp. simpl.
           destruct (decide (HealthCheck.ServiceID c = id)) as [->|].
           ++ rewrite lookup_insert_eq. by eauto.
           ++ by rewrite lookup_insert_ne.
        -- eauto.
      * rewrite passingMap_snoc, decide_True by done.
        eexists. split; [done|]. rewrite Hid, lookup_insert_eq. by eauto.
Qed.

(** The document is the collected lines, sorted and joined. *)
Lemma sortedConfig_value checks tagPrefix w :
  value (sortedConfig checks tagPrefix w)
  = SortReverse (value (collectConfig checks tagPrefix w)).
Proof.
  unfold consul.sortedConfig. run.
  by destruct (collectConfig checks tagPrefix w) as [[config w1] t1].
Qed.

Lemma servicesConfig_value checks tagPrefix w :
  value (servicesConfig checks tagPrefix w)
  = Join (value (sortedConfig checks tagPrefix w)) newline.
Proof.
  unfold consul.servicesConfig. run.
  by destruct (sortedConfig checks tagPrefix w) as [[config w1] t1].
Qed.

Lemma sortedConfig_elem checks tagPrefix w line :
  line ∈ value (sortedConfig checks tagPrefix w) →
  ∃ name passing, passingMap checks !! name = Some passing
                  ∧ fromPassing name passing tagPrefix line.
Proof.
  rewrite sortedConfig_value, (SortReverse_Permutation _).
  apply collectConfig_elem.
Qed.

(** *** Nothing but the watcher itself sends on the channel *)

Lemma sends_app t1 t2 : sends (t1 ++ t2) = sends t1 ++ sends t2.
Proof. apply omap_app. Qed.

Lemma rangeDatacenters_sends name passing tagPrefix dcs config w :
  sends (trace (rangeDatacenters name passing tagPrefix dcs config w)) = [].
Proof.
  revert config w. induction dcs as [|dc dcs IH]; intros config w; run; [done|].
  match goal with |- context [Catalog_Service client name "" ?q w] =>
    destruct (Catalog_Service client name "" q w) as [[svcs|err] w1]
  end; run; [|done].
  specialize (IH (rangeSvcs passing tagPrefix {[ "DC" := dc ]} svcs config) w1).
  by destruct (rangeDatacenters _ _ _ _ _ w1) as [[r w2] t2].
Qed.

Lemma serviceConfig_sends name passing tagPrefix w :
  sends (trace (serviceConfig name passing tagPrefix w)) = [].
Proof.
  unfold consul.serviceConfig. destruct (_ || _); run; [done|].
  destruct (Catalog_Datacenters client w) as [[dcs|err] w1]; run; [|done].
  pose proof (rangeDatacenters_sends name passing tagPrefix dcs [] w1) as H.
  destruct (rangeDatacenters _ _ _ _ _ w1) as [[r w2] t2]. run.
  by rewrite app_nil_r.
Qed.

Lemma rangeServices_sends tagPrefix entries config w :
  sends (trace (rangeServices tagPrefix entries config w)) = [].
Proof.
  revert config w. induction entries as [|[name passing] entries IH];
    intros config w; run; [done|].
  pose proof (serviceConfig_sends name passing tagPrefix w) as H1.
  destruct (serviceConfig name passing tagPrefix w) as [[cfg w1] t1].
  specialize (IH (config ++ cfg) w1).
  destruct (rangeServices _ _ _ w1) as [[r w2] t2]. run.
  by rewrite sends_app, H1, IH.
Qed.

Lemma servicesConfig_sends checks tagPrefix w :
  sends (trace (servicesConfig checks tagPrefix w)) = [].
Proof.
  unfold consul.servicesConfig, consul.sortedConfig, consul.collectConfig. run.
  pose proof (rangeServices_sends tagPrefix
    (rangeOrder (mapiterinit w) (map_to_list (passingMap checks))) [] w) as H.
  destruct (rangeServices _ _ _ w) as [[r w2] t2]. run.
  by rewrite !app_nil_r.
Qed.

(** *** The line of one tag *)

Lemma routeLine_addr svc :
  ∃ addr,
    (∀ host path,
       routeLine svc host path
       = "route add " +:+ CatalogService.ServiceName svc +:+ " " +:+ host +:+ path
         +:+ " http://" +:+ addr +:+ ":" +:+ fmt_d (CatalogService.ServicePort svc)
         +:+ "/ tags "
         +:+ Quote unicodeIsPrint (Join (CatalogService.ServiceTags svc) ","))
    ∧ (GOOS = "darwin" ∧ noDot (instanceAddr svc) ∧ noLocalSuffix (instanceAddr svc)
       → addr = instanceAddr svc +:+ ".local")
    ∧ (¬ (GOOS = "darwin" ∧ noDot (instanceAddr svc)
          ∧ noLocalSuffix (instanceAddr svc))
       → addr = instanceAddr svc).
Proof.
  unfold consul.routeLine.
  assert ((if String.eqb (CatalogService.ServiceAddress svc) ""
           then CatalogService.Address svc
           else CatalogService.ServiceAddress svc) = instanceAddr svc) as ->.
  { unfold instanceAddr. destruct (String.eqb_spec (CatalogService.ServiceAddress svc) "");
      by case_decide. }
  set (base := instanceAddr svc).
  assert (Contains base "." = false ↔ noDot base) as Hdot.
  { rewrite <-not_true_iff_false, Contains_app. unfold noDot. split.
    - intros Hn pre post ->. apply Hn. eauto.
    - intros Hn (pre & post & ->). by eapply Hn. }
  assert (HasSuffix base ".local" = false ↔ noLocalSuffix base) as Hsuf.
  { rewrite <-not_true_iff_false, HasSuffix_app. unfold noLocalSuffix. split.
    - intros Hn pre ->. apply Hn. eauto.
    - intros Hn (pre & ->). by eapply Hn. }
  assert (String.eqb GOOS "darwin" && negb (Contains base ".")
            && negb (HasSuffix base ".local") = true
          ↔ GOOS = "darwin" ∧ noDot base ∧ noLocalSuffix base) as Hcond.
  { rewrite !andb_true_iff, !negb_true_iff, String.eqb_eq, Hdot, Hsuf.
    tauto. }
  destruct (String.eqb GOOS "darwin" && negb (Contains base ".")
            && negb (HasSuffix base ".local")) eqn:Hc.
  - exists (base +:+ ".local"). split; [done|]. split; [done|].
    intros Hn. destruct Hn. by apply Hcond.
  - exists base. split; [done|]. split; [|done].
    intros Hn%Hcond. done.
Qed.

(** *** One turn of the watcher *)

Section watch.
Variables (tagPrefix : string) (status : list string) (dcIndex : Z)
  (datacenters : list string).

Local Abbreviation rangeRemote := (rangeRemote client dcIndex).
Local Abbreviation watchIteration :=
  (watchIteration GOOS unicodeIsPrint mapiterinit parseURLPrefixTag
     passingServices client tagPrefix status dcIndex datacenters).
Local Abbreviation watchLoop :=
  (watchLoop GOOS unicodeIsPrint mapiterinit parseURLPrefixTag
     passingServices client tagPrefix status dcIndex datacenters).
Local Abbreviation RemoteReads := (RemoteReads client dcIndex).

Lemma rangeRemote_RemoteReads i dcs all_checks w :
  ∃ records w' t,
    RemoteReads i dcs w records w' t
    ∧ rangeRemote i dcs all_checks w = (all_checks ++ records, w', t).
Proof.
  revert i all_checks w. induction dcs as [|dc dcs IH]; intros i all_checks w; run.
  - exists [], w, []. rewrite app_nil_r. split; [constructor|done].
  - destruct (Z.eqb_spec (Z.of_nat i) dcIndex) as [Heq|Hne].
    + destruct (IH (S i) all_checks w) as (records & w' & t & Hr & Heqn).
      exists records, w', t. split; [by apply remote_local|done].
    + run.
      match goal with |- context [Health_State client "any" ?q w] =>
        destruct (Health_State client "any" q w) as [[[checks meta]|err] w1] eqn:Hh
      end; run.
      * destruct (IH (S i) (all_checks ++ checks) w1) as (records & w' & t & Hr & Heqn).
        exists (checks ++ records), w', t. split; [by eapply remote_ok|].
        rewrite Heqn. by rewrite (assoc_L (++)).
      * destruct (IH (S i) all_checks w1) as (records & w' & t & Hr & Heqn).
        eexists records, w', _. split; [by eapply remote_failed|].
        by rewrite Heqn.
Qed.

Lemma RemoteReads_sends i dcs w records w' t :
  RemoteReads i dcs w records w' t → sends t = [].
Proof. induction 1; done. Qed.

Lemma watchIteration_err dc lastIndex w err w' :
  index datacenters dcIndex = Some dc →
  Health_State client "any" (localQuery dc lastIndex) w = (Err err, w') →
  watchIteration lastIndex w
  = (Some lastIndex, w',
     [LogPrintf ("[WARN] consul: Error fetching health state. " +:+ err);
      TimeSleep Second]).
Proof.
  intros Hi Hh. unfold consul.watchIteration. rewrite Hi. run.
  unfold localQuery in Hh. by rewrite Hh.
Qed.

Lemma watchIteration_ok dc lastIndex w checks meta w1 :
  index datacenters dcIndex = Some dc →
  Health_State client "any" (localQuery dc lastIndex) w = (Ok (checks, meta), w1) →
  ∃ records w2 t2 doc w3 t3,
    RemoteReads 0 datacenters w1 records w2 t2
    ∧ servicesConfig (passingServices (checks ++ records) status) tagPrefix w2
      = (doc, w3, t3)
    ∧ watchIteration lastIndex w
      = (Some (LastIndex meta), w3,
         LogPrintf ("[WARN] consul: Health changed to #" +:+ fmt_u (LastIndex meta))
           :: t2 ++ t3 ++ [ChanSend doc]).
Proof.
  intros Hi Hh. unfold consul.watchIteration. rewrite Hi. run.
  unfold localQuery in Hh. rewrite Hh. run.
  destruct (rangeRemote_RemoteReads 0 datacenters checks w1)
    as (records & w2 & t2 & Hr & Heqn).
  rewrite Heqn.
  destruct (servicesConfig (passingServices (checks ++ records) status) tagPrefix w2)
    as [[doc w3] t3] eqn:Hs.
  exists records, w2, t2, doc, w3, t3. by rewrite Hs.
Qed.

Lemma watchIteration_sends lastIndex w doc :
  doc ∈ sends (trace (watchIteration lastIndex w)) →
  ∃ dc checks meta w1 records w2 t2 w3 t3,
    index datacenters dcIndex = Some dc
    ∧ Health_State client "any" (localQuery dc lastIndex) w = (Ok (checks, meta), w1)
    ∧ RemoteReads 0 datacenters w1 records w2 t2
    ∧ servicesConfig (passingServices (checks ++ records) status) tagPrefix w2
      = (doc, w3, t3).
Proof.
  destruct (index datacenters dcIndex) as [dc|] eqn:Hi.
  - destruct (Health_State client "any" (localQuery dc lastIndex) w)
      as [[[checks meta]|err] w1] eqn:Hh.
    + destruct (watchIteration_ok dc lastIndex w checks meta w1 Hi Hh)
        as (records & w2 & t2 & doc' & w3 & t3 & Hr & Hs & ->).
      unfold trace. simpl. rewrite !sends_app, (RemoteReads_sends _ _ _ _ _ _ Hr).
      pose proof (servicesConfig_sends (passingServices (checks ++ records) status)
                    tagPrefix w2) as Hq.
      rewrite Hs in Hq. unfold trace in Hq. simpl in Hq. rewrite Hq. simpl.
      intros ->%list_elem_of_singleton.
      by exists dc, checks, meta, w1, records, w2, t2, w3, t3.
    + rewrite (watchIteration_err dc lastIndex w err w1 Hi Hh).
      by intros ?%elem_of_nil.
  - unfold consul.watchIteration. rewrite Hi. by intros ?%elem_of_nil.
Qed.

(** C1. Every route line of a document that the watcher publishes comes
    from a service instance whose ServiceID is in the passing-set that
    the same turn computed for the service name of the instance: the
    name the catalog lists the instance under, which is the ServiceName
    of the instance when the catalog keeps its contract.  That ID is the
    ServiceID of a health record of the turn for that service. *)
Theorem published_lines_from_passing_set lastIndex w doc :
  doc ∈ sends (trace (watchIteration lastIndex w)) →
  ∃ all_checks w2,
    let checks := passingServices all_checks status in
    let lines := value (sortedConfig checks tagPrefix w2) in
    doc = Join lines newline
    ∧ ∀ line, line ∈ lines →
        ∃ name passing dc svc,
          passingMap checks !! name = Some passing
          ∧ is_Some (passing !! CatalogService.ServiceID svc)
          ∧ (∃ c, c ∈ checks ∧ HealthCheck.ServiceName c = name
                  ∧ HealthCheck.ServiceID c = CatalogService.ServiceID svc)
          ∧ listed name dc svc
          ∧ (namesKept client → CatalogService.ServiceName svc = name)
          ∧ lineOf tagPrefix dc svc line.
Proof.
  intros (dc & checks & meta & w1 & records & w2 & t2 & w3 & t3
          & _ & _ & _ & Hs)%watchIteration_sends.
  exists (checks ++ records), w2. simpl. split.
  - rewrite <-servicesConfig_value, Hs. done.
  - intros line (name & passing & Hm & dc' & svc & Hl & Hid & Hline)%sortedConfig_elem.
    exists name, passing, dc', svc. split_and!; try done.
    + apply passingMap_spec. eauto.
    + intros Hkept. destruct Hl as (w0 & w0' & svcs & Hc & Hin).
      by eapply Hkept.
Qed.

(** C6. When the blocking read of the local datacenter fails, the turn
    logs a warning, sleeps one second and ends with [lastIndex] as it was
    and nothing sent; the next turn repeats the read with the same
    [lastIndex].  A turn that sends a document had a local read that
    succeeded. *)
Theorem local_read_error_retries dc lastIndex w :
  index datacenters dcIndex = Some dc →
  (∀ err w',
     Health_State client "any" (localQuery dc lastIndex) w = (Err err, w') →
     watchIteration lastIndex w
     = (Some lastIndex, w',
        [LogPrintf ("[WARN] consul: Error fetching health state. " +:+ err);
         TimeSleep Second])
     ∧ sends (trace (watchIteration lastIndex w)) = []
     ∧ ∀ n,
         watchLoop (S n) lastIndex w
         = (value (watchLoop n lastIndex w'), world (watchLoop n lastIndex w'),
            [LogPrintf ("[WARN] consul: Error fetching health state. " +:+ err);
             TimeSleep Second] ++ trace (watchLoop n lastIndex w')))
  ∧ (∀ doc,
       doc ∈ sends (trace (watchIteration lastIndex w)) →
       ∃ checks meta w',
         Health_State client "any" (localQuery dc lastIndex) w
         = (Ok (checks, meta), w')).
Proof.
  intros Hi. split.
  - intros err w' Hh.
    pose proof (watchIteration_err dc lastIndex w err w' Hi Hh) as Hit.
    split; [done|]. split; [by rewrite Hit|].
    intros n. cbn [consul.watchLoop]. unfold mbind, M_bind. rewrite Hit.
    by destruct (watchLoop n lastIndex w') as [[r w2] t2].
  - intros doc (dc' & checks & meta & w1 & _ & _ & _ & _ & _
                & Hi' & Hh & _)%watchIteration_sends.
    rewrite Hi in Hi'. simplify_eq. by exists checks, meta, w1.
Qed.

(** After a local read that succeeded the turn always sends exactly one
    document: what [servicesConfig] returns for the local records followed
    by the records of the other datacenters whose read succeeded. *)
Lemma watchIteration_publishes dc lastIndex w checks meta w1 :
  index datacenters dcIndex = Some dc →
  Health_State client "any" (localQuery dc lastIndex) w = (Ok (checks, meta), w1) →
  ∃ records w2 t2 doc w3 t3,
    RemoteReads 0 datacenters w1 records w2 t2
    ∧ servicesConfig (passingServices (checks ++ records) status) tagPrefix w2
      = (doc, w3, t3)
    ∧ watchIteration lastIndex w
      = (Some (LastIndex meta), w3,
         LogPrintf ("[WARN] consul: Health changed to #" +:+ fmt_u (LastIndex meta))
           :: t2 ++ t3 ++ [ChanSend doc])
    ∧ sends (trace (watchIteration lastIndex w)) = [doc].
Proof.
  intros Hi Hh.
  destruct (watchIteration_ok dc lastIndex w checks meta w1 Hi Hh)
    as (records & w2 & t2 & doc & w3 & t3 & Hr & Hs & Hit).
  exists records, w2, t2, doc, w3, t3. split_and!; [done..|].
  rewrite Hit. unfold trace. simpl.
  rewrite !sends_app, (RemoteReads_sends _ _ _ _ _ _ Hr).
  pose proof (servicesConfig_sends (passingServices (checks ++ records) status)
                tagPrefix w2) as Hq.
  rewrite Hs in Hq. unfold trace in Hq. simpl in Hq. by rewrite Hq.
Qed.

End watch.

(** C2. The document is the collected route lines, sorted in descending
    byte order and joined with single newlines.  Sorting keeps every line
    as often as it was collected: lines that were collected twice stay
    twice in the document. *)
Theorem document_sorted_and_joined checks tagPrefix w :
  let collected := value (collectConfig checks tagPrefix w) in
  let lines := value (sortedConfig checks tagPrefix w) in
  value (servicesConfig checks tagPrefix w) = Join lines newline
  ∧ lines ≡ₚ collected
  ∧ StronglySorted string_ge lines
  ∧ ∀ l, l ≡ₚ collected → Sorted string_ge l → l = lines.
Proof.
  simpl. rewrite servicesConfig_value, sortedConfig_value. split_and!.
  - done.
  - apply SortReverse_Permutation.
  - apply SortReverse_sorted.
  - apply SortReverse_unique.
Qed.

(** C3. Every line that the catalog reader emits is
    route add <service> <host><path> http://<addr>:<port>/ tags <q>
    for a tag of an instance the catalog lists: <host> and <path> are what
    the tag parses to, <addr> is the address of the instance, the node
    address when the instance has none, with .local appended on darwin
    when it has no dot, and <q> is the comma separated tag list as the
    verb %q prints it.  The line is the RouteLine of the instance, with
    the tag list as it is between double quotes, exactly when that list
    is well-formed UTF-8 of printable characters other than the double
    quote and the backslash: so it is when the list holds only printable
    ASCII without these two, and so it is not when the list holds a
    double quote, a backslash or a control character of ASCII. *)
Theorem route_line_form name passing tagPrefix w line :
  line ∈ value (serviceConfig name passing tagPrefix w) →
  ∃ dc svc tag host path addr,
    listed name dc svc
    ∧ tag ∈ CatalogService.ServiceTags svc
    ∧ parseURLPrefixTag tag tagPrefix {[ "DC" := dc ]} = Some (host, path)
    ∧ line
      = "route add " +:+ CatalogService.ServiceName svc +:+ " " +:+ host +:+ path
        +:+ " http://" +:+ addr +:+ ":" +:+ fmt_d (CatalogService.ServicePort svc)
        +:+ "/ tags "
        +:+ Quote unicodeIsPrint (Join (CatalogService.ServiceTags svc) ",")
    ∧ (GOOS = "darwin" ∧ noDot (instanceAddr svc) ∧ noLocalSuffix (instanceAddr svc)
       → addr = instanceAddr svc +:+ ".local")
    ∧ (¬ (GOOS = "darwin" ∧ noDot (instanceAddr svc)
          ∧ noLocalSuffix (instanceAddr svc))
       → addr = instanceAddr svc)
    ∧ (line = RouteLine (CatalogService.ServiceName svc) host path addr
                (CatalogService.ServicePort svc) (CatalogService.ServiceTags svc)
       ↔ unescaped unicodeIsPrint (Join (CatalogService.ServiceTags svc) ","))
    ∧ (plain (Join (CatalogService.ServiceTags svc) ",") →
       line = RouteLine (CatalogService.ServiceName svc) host path addr
                (CatalogService.ServicePort svc) (CatalogService.ServiceTags svc))
    ∧ (needsEscape (Join (CatalogService.ServiceTags svc) ",") →
       line ≠ RouteLine (CatalogService.ServiceName svc) host path addr
                (CatalogService.ServicePort svc) (CatalogService.ServiceTags svc)).
Proof.
  intros (dc & svc & Hl & _ & tag & host & path & Ht & Hp & ->)%serviceConfig_elem.
  destruct (routeLine_addr svc) as (addr & Hline & Hdarwin & Hother).
  exists dc, svc, tag, host, path, addr. split_and!; try done.
  - split.
    + intros Heq. rewrite Hline in Heq. unfold RouteLine in Heq.
      apply (f_equal String.length) in Heq.
      apply Quote_length_unescaped.
      repeat rewrite golib_facts.length_app in Heq.
      repeat rewrite golib_facts.length_app. lia.
    + intros Hun. rewrite Hline. unfold RouteLine.
      by rewrite (Quote_unescaped _ _ Hun).
  - intros Hplain. rewrite Hline. unfold RouteLine.
    by rewrite (Quote_plain _ _ Hplain).
  - intros Hesc Heq. rewrite Hline in Heq. unfold RouteLine in Heq.
    apply (f_equal String.length) in Heq.
    pose proof (Quote_needsEscape unicodeIsPrint _ Hesc) as Hlen.
    repeat rewrite golib_facts.length_app in Heq.
    repeat rewrite golib_facts.length_app in Hlen. lia.
Qed.

End service.
End consul_facts.

(** *** The watcher on the sample deployment *)

Module consul_runs.
Import golib effects api consul design golib_facts consul_facts.

(** Witness of C1: the document of the sample turn and its one line. *)
Lemma published_lines_witness :
  sample.webLine
    ∈ sends (trace (sample.watchIteration
                      (sample.agent 0 sample.webChecks [sample.web1; sample.web2])
                      "urlprefix-" ["passing"] 0 ["dc1"; "dc2"] 0%N 0%nat))
  ∧ ∃ all_checks w2,
      let checks := design.passingServices all_checks ["passing"] in
      let lines :=
        value (sample.sortedConfig
                 (sample.agent 0 sample.webChecks [sample.web1; sample.web2])
                 checks "urlprefix-" w2) in
      sample.webLine = Join lines newline
      ∧ ∀ line, line ∈ lines →
          ∃ name passing dc svc,
            passingMap checks !! name = Some passing
            ∧ is_Some (passing !! CatalogService.ServiceID svc)
            ∧ (∃ c, c ∈ checks ∧ HealthCheck.ServiceName c = name
                    ∧ HealthCheck.ServiceID c = CatalogService.ServiceID svc)
            ∧ listed (sample.agent 0 sample.webChecks [sample.web1; sample.web2])
                name dc svc
            ∧ (namesKept (sample.agent 0 sample.webChecks [sample.web1; sample.web2])
               → CatalogService.ServiceName svc = name)
            ∧ lineOf "linux" sample.unicodeIsPrint design.parseURLPrefixTag
                "urlprefix-" dc svc line.
Proof.
  assert (sample.webLine
    ∈ sends (trace (sample.watchIteration
                      (sample.agent 0 sample.webChecks [sample.web1; sample.web2])
                      "urlprefix-" ["passing"] 0 ["dc1"; "dc2"] 0%N 0%nat))) as H.
  { vm_compute. apply list_elem_of_here. }
  split; [exact H|].
  exact (published_lines_from_passing_set "linux" sample.unicodeIsPrint
           sample.mapiterinit design.parseURLPrefixTag design.passingServices
           (sample.agent 0 sample.webChecks [sample.web1; sample.web2])
           "urlprefix-" ["passing"] 0 ["dc1"; "dc2"] 0%N 0%nat sample.webLine H).
Defined.

(** The sample agent keeps the contract of the catalog. *)
Example agent_namesKept failures checks svcs :
  namesKept (sample.agent failures checks svcs).
Proof.
  intros name tag q w svcs' w' [= <- _] svc Hin.
  by apply list_elem_of_filter in Hin as [? _].
Qed.

(** Counterexample to C2 as stated: an instance that carries the same
    prefix tag twice gives the same line twice, and both stay in the
    document. *)
Lemma twice_tagged_duplicates :
  value (sample.servicesConfig (sample.agent 0 [] [sample.twice])
           [sample.check "web" "web-1" "passing"] "urlprefix-" 0%nat)
  = sample.twiceLine +:+ newline +:+ sample.twiceLine
  ∧ ¬ NoDup (value (sample.sortedConfig (sample.agent 0 [] [sample.twice])
                      [sample.check "web" "web-1" "passing"] "urlprefix-" 0%nat)).
Proof.
  split; [by vm_compute|].
  assert (value (sample.sortedConfig (sample.agent 0 [] [sample.twice])
                   [sample.check "web" "web-1" "passing"] "urlprefix-" 0%nat)
          = [sample.twiceLine; sample.twiceLine]) as -> by (by vm_compute).
  intros Hnd. apply NoDup_cons in Hnd as [Hnotin _].
  apply Hnotin, list_elem_of_here.
Qed.

(** Witness of C3: the line of the sample instance. *)
Lemma route_line_witness :
  sample.webLine
    ∈ value (sample.serviceConfig (sample.agent 0 [] [sample.web1]) "web"
               {[ "web-1" := true ]} "urlprefix-" 0%nat)
  ∧ ∃ dc svc tag host path addr,
      listed (sample.agent 0 [] [sample.web1]) "web" dc svc
      ∧ tag ∈ CatalogService.ServiceTags svc
      ∧ design.parseURLPrefixTag tag "urlprefix-" {[ "DC" := dc ]} = Some (host, path)
      ∧ sample.webLine
        = "route add " +:+ CatalogService.ServiceName svc +:+ " " +:+ host +:+ path
          +:+ " http://" +:+ addr +:+ ":" +:+ fmt_d (CatalogService.ServicePort svc)
          +:+ "/ tags "
          +:+ Quote sample.unicodeIsPrint (Join (CatalogService.ServiceTags svc) ",")
      ∧ ("linux" = "darwin" ∧ noDot (instanceAddr svc) ∧ noLocalSuffix (instanceAddr svc)
         → addr = instanceAddr svc +:+ ".local")
      ∧ (¬ ("linux" = "darwin" ∧ noDot (instanceAddr svc)
            ∧ noLocalSuffix (instanceAddr svc))
         → addr = instanceAddr svc)
      ∧ (sample.webLine
         = RouteLine (CatalogService.ServiceName svc) host path addr
             (CatalogService.ServicePort svc) (CatalogService.ServiceTags svc)
         ↔ unescaped sample.unicodeIsPrint
             (Join (CatalogService.ServiceTags svc) ","))
      ∧ (plain (Join (CatalogService.ServiceTags svc) ",") →
         sample.webLine
         = RouteLine (CatalogService.ServiceName svc) host path addr
             (CatalogService.ServicePort svc) (CatalogService.ServiceTags svc))
      ∧ (needsEscape (Join (CatalogService.ServiceTags svc) ",") →
         sample.webLine
         ≠ RouteLine (CatalogService.ServiceName svc) host path addr
             (CatalogService.ServicePort svc) (CatalogService.ServiceTags svc)).
Proof.
  assert (sample.webLine
    ∈ value (sample.serviceConfig (sample.agent 0 [] [sample.web1]) "web"
               {[ "web-1" := true ]} "urlprefix-" 0%nat)) as H.
  { vm_compute. apply list_elem_of_here. }
  split; [exact H|].
  exact (route_line_form "linux" sample.unicodeIsPrint design.parseURLPrefixTag
           (sample.agent 0 [] [sample.web1]) "web" {[ "web-1" := true ]}
           "urlprefix-" 0%nat sample.webLine H).
Defined.

(** Counterexample to C3 as stated: a tag that holds a double quote is
    printed with backslashes, so the line does not end in the tag list
    between double quotes, whatever service, host, path, address and port
    it is read with. *)
Lemma quoted_tag_line_escaped :
  value (sample.serviceConfig (sample.agent 0 [] [sample.quoted]) "web"
           {[ "web-1" := true ]} "urlprefix-" 0%nat)
  = [sample.quotedLine]
  ∧ ∀ service host path addr port,
      sample.quotedLine
      ≠ RouteLine service host path addr port
          (CatalogService.ServiceTags sample.quoted).
Proof.
  split; [by vm_compute|].
  intros service host path addr port Heq.
  assert (HasSuffix sample.quotedLine
            (dquote +:+ Join (CatalogService.ServiceTags sample.quoted) ","
               +:+ dquote) = true) as Hs.
  { apply HasSuffix_app. rewrite Heq. unfold RouteLine.
    exists ("route add " +:+ service +:+ " " +:+ host +:+ path +:+ " http://"
              +:+ addr +:+ ":" +:+ fmt_d port +:+ "/ tags ").
    by rewrite !append_assoc. }
  vm_compute in Hs. discriminate Hs.
Qed.

(** A tag list outside ASCII that [%q] prints as it is, whatever the
    table of [strconv.IsPrint] above Latin-1 says. *)
Example latin1_printed_as_it_is (unicodeIsPrint : N → bool) :
  Quote unicodeIsPrint "café,v1" = dquote +:+ "café,v1" +:+ dquote
  ∧ unescaped unicodeIsPrint "café,v1"
  ∧ ¬ plain "café,v1".
Proof.
  split; [by vm_compute|]. split.
  - apply Quote_length_unescaped. vm_compute. lia.
  - intros (_ & _ & _ & ((_ & Hle) & _) & _). vm_compute in Hle. by apply Hle.
Qed.

(** Witness of C6: the agent refuses the first read. *)
Lemma local_read_error_witness :
  index ["dc1"; "dc2"] 0 = Some "dc1"
  ∧ Health_State (sample.agent 3 sample.webChecks [sample.web1; sample.web2])
      "any" (localQuery "dc1" 0) 0%nat
    = (Err "connection refused", 1%nat)
  ∧ sample.watchIteration
      (sample.agent 3 sample.webChecks [sample.web1; sample.web2])
      "urlprefix-" ["passing"] 0 ["dc1"; "dc2"] 0%N 0%nat
    = (Some 0%N, 1%nat,
       [LogPrintf "[WARN] consul: Error fetching health state. connection refused";
        TimeSleep Second]).
Proof.
  assert (index ["dc1"; "dc2"] 0 = Some "dc1") as Hi by reflexivity.
  assert (Health_State (sample.agent 3 sample.webChecks [sample.web1; sample.web2])
            "any" (localQuery "dc1" 0) 0%nat
          = (Err "connection refused", 1%nat)) as Hh by reflexivity.
  split; [exact Hi|]. split; [exact Hh|].
  exact (proj1 (proj1 (local_read_error_retries "linux" sample.unicodeIsPrint
           sample.mapiterinit design.parseURLPrefixTag design.passingServices
           (sample.agent 3 sample.webChecks [sample.web1; sample.web2])
           "urlprefix-" ["passing"] 0 ["dc1"; "dc2"] "dc1" 0%N 0%nat Hi)
           "connection refused" 1%nat Hh)).
Defined.

(** The scenario of the design document: three reads in a row are
    refused; three warnings, nothing sent, [lastIndex] as it was; the
    fourth turn sends the document. *)
Example three_errors_then_publish :
  consul.watchServices "linux" sample.unicodeIsPrint sample.mapiterinit
    design.parseURLPrefixTag design.passingServices
    (sample.agent 3 sample.webChecks [sample.web1; sample.web2])
    "urlprefix-" ["passing"] 0 ["dc1"] 3 0%nat
  = (Some 0%N, 3%nat,
     [LogPrintf "[WARN] consul: Error fetching health state. connection refused";
      TimeSleep Second;
      LogPrintf "[WARN] consul: Error fetching health state. connection refused";
      TimeSleep Second;
      LogPrintf "[WARN] consul: Error fetching health state. connection refused";
      TimeSleep Second])
  ∧ sends (trace (consul.watchServices "linux" sample.unicodeIsPrint
                    sample.mapiterinit design.parseURLPrefixTag
                    design.passingServices
                    (sample.agent 3 sample.webChecks [sample.web1; sample.web2])
                    "urlprefix-" ["passing"] 0 ["dc1"] 4 0%nat))
    = [sample.webLine].
Proof. split; by vm_compute. Qed.

End consul_runs.

(** ** The dispatcher *)

Module proxy_facts.
Import golib effects proxy.

Ltac run :=
  simpl in *;
  unfold mbind, M_bind, mret, M_ret, call, emit, peek, value, world, trace in *;
  simpl in *.

Section dispatch.
Context {W : Type}.
Variable ShuttingDown : W -> bool.
Variable target : Request -> W -> option Target * W.
Variable addHeaders : Request -> config_Proxy -> string + Request.
Variable Now : W -> Z * W.

Local Abbreviation ServeHTTP := (ServeHTTP ShuttingDown target addHeaders Now).

Lemma ServeHTTP_shutdown p r w :
  ShuttingDown w = true →
  ServeHTTP p r w
  = (tt, w, [http_Error "shutting down" StatusServiceUnavailable]).
Proof. intros H. unfold proxy.ServeHTTP. run. by rewrite H. Qed.

Lemma ServeHTTP_no_route p r w w' :
  ShuttingDown w = false → target r w = (None, w') →
  ServeHTTP p r w = (tt, w', [Lookup r; WriteHeader (NoRouteStatus (cfg p))]).
Proof. intros H Ht. unfold proxy.ServeHTTP. run. by rewrite H, Ht. Qed.

Lemma ServeHTTP_cannot_parse p r w t w' err :
  ShuttingDown w = false → target r w = (Some t, w') →
  addHeaders r (cfg p) = inl err →
  ServeHTTP p r w
  = (tt, w',
     [Lookup r;
      http_Error ("cannot parse " +:+ RemoteAddr r) StatusInternalServerError]).
Proof. intros H Ht Ha. unfold proxy.ServeHTTP. run. by rewrite H, Ht, Ha. Qed.

Lemma ServeHTTP_served p r w t w' r' :
  ShuttingDown w = false → target r w = (Some t, w') →
  addHeaders r (cfg p) = inr r' →
  ∃ h,
    ServeHTTP p r w
    = (tt, (Now w').2,
       [Lookup r; Handler_ServeHTTP h r'; UpdateSince (requests p) (Now w').1;
        UpdateSince (Timer t) (Now w').1])
    ∧ h = (if String.eqb (Header_Get (header r') "Upgrade") "websocket"
           then newRawProxy (target_URL t)
           else if String.eqb (Header_Get (header r') "Accept") "text/event-stream"
           then newHTTPProxy (target_URL t) (tr p) (FlushInterval (cfg p))
           else newHTTPProxy (target_URL t) (tr p) 0%Z).
Proof.
  intros H Ht Ha. eexists. split; [|reflexivity].
  unfold proxy.ServeHTTP. run. rewrite H, Ht, Ha. run.
  by destruct (Now w') as [start w''].
Qed.

(** C4. A request that reaches the choice of the handler, with the
    headers as [addHeaders] left them: the raw-upgrade handler when
    Upgrade is websocket, whatever Accept says; otherwise the HTTP handler
    with the configured FlushInterval when Accept is text/event-stream;
    otherwise the HTTP handler with flush interval zero. *)
Theorem handler_selection p r w t w' r' :
  ShuttingDown w = false → target r w = (Some t, w') →
  addHeaders r (cfg p) = inr r' →
  ∃ h,
    handlers (trace (ServeHTTP p r w)) = [h]
    ∧ (Header_Get (header r') "Upgrade" = "websocket" →
       h = newRawProxy (target_URL t))
    ∧ (Header_Get (header r') "Upgrade" ≠ "websocket" →
       Header_Get (header r') "Accept" = "text/event-stream" →
       h = newHTTPProxy (target_URL t) (tr p) (FlushInterval (cfg p)))
    ∧ (Header_Get (header r') "Upgrade" ≠ "websocket" →
       Header_Get (header r') "Accept" ≠ "text/event-stream" →
       h = newHTTPProxy (target_URL t) (tr p) 0%Z).
Proof.
  intros H Ht Ha.
  destruct (ServeHTTP_served p r w t w' r' H Ht Ha) as (h & -> & Hh).
  exists h. split; [done|]. rewrite Hh.
  destruct (String.eqb_spec (Header_Get (header r') "Upgrade") "websocket");
    destruct (String.eqb_spec (Header_Get (header r') "Accept") "text/event-stream");
    split_and!; intros; done.
Qed.

(** C5. With the shutdown gate set the dispatcher only calls http.Error
    with status 503 and the text shutting down, which net/http sends as a
    plain-text body; the route table is not looked at and the world is as
    it was. *)
Theorem shutdown_gate_503 p r w :
  ShuttingDown w = true →
  ServeHTTP p r w = (tt, w, [http_Error "shutting down" 503%Z])
  ∧ lookups (trace (ServeHTTP p r w)) = [].
Proof. intros H. by rewrite (ServeHTTP_shutdown p r w H). Qed.

(** C8. Not shutting down and no target for the request: after the
    lookup the dispatcher only calls WriteHeader with the configured
    NoRouteStatus; nothing that writes a body happens. *)
Theorem no_route_status p r w w' :
  ShuttingDown w = false → target r w = (None, w') →
  ServeHTTP p r w = (tt, w', [Lookup r; WriteHeader (NoRouteStatus (cfg p))])
  ∧ Forall (λ e, writesBody e = false) (trace (ServeHTTP p r w)).
Proof.
  intros H Ht. rewrite (ServeHTTP_no_route p r w w' H Ht).
  split; [done|]. repeat constructor.
Qed.

(** C9. The dispatcher answers by itself, without a handler, exactly when
    the gate is set, the lookup finds no target or the header injection
    fails; it then updates no timer.  Where timers are updated a handler
    was called before, and they are the requests timer and the timer of
    the target. *)
Theorem timers_only_after_handler p r w :
  (handlers (trace (ServeHTTP p r w)) = []
   ↔ ShuttingDown w = true ∨ (target r w).1 = None
     ∨ ∃ err, addHeaders r (cfg p) = inl err)
  ∧ (handlers (trace (ServeHTTP p r w)) = [] →
     timerUpdates (trace (ServeHTTP p r w)) = [])
  ∧ (timerUpdates (trace (ServeHTTP p r w)) ≠ [] →
     ∃ h r' t start,
       (target r w).1 = Some t
       ∧ trace (ServeHTTP p r w)
         = [Lookup r; Handler_ServeHTTP h r'; UpdateSince (requests p) start;
            UpdateSince (Timer t) start]).
Proof.
  destruct (ShuttingDown w) eqn:H.
  { rewrite (ServeHTTP_shutdown p r w H). split_and!; [split; auto|done..]. }
  destruct (target r w) as [[t|] w'] eqn:Ht.
  2:{ rewrite (ServeHTTP_no_route p r w w' H Ht). split_and!; [split; auto|done..]. }
  destruct (addHeaders r (cfg p)) as [err|r'] eqn:Ha.
  { rewrite (ServeHTTP_cannot_parse p r w t w' err H Ht Ha).
    split_and!; [split; eauto|done..]. }
  destruct (ServeHTTP_served p r w t w' r' H Ht Ha) as (h & -> & _).
  split_and!.
  - split; [done|]. intros [?|[?|[? ?]]]; done.
  - done.
  - intros _. by exists h, r', t, (Now w').1.
Qed.

(** C10. The header values are compared byte for byte: with an Upgrade
    value other than websocket and an Accept value other than
    text/event-stream the HTTP handler with flush interval zero serves the
    request. *)
Theorem header_match_is_exact p r w t w' r' :
  ShuttingDown w = false → target r w = (Some t, w') →
  addHeaders r (cfg p) = inr r' →
  Header_Get (header r') "Upgrade" ≠ "websocket" →
  Header_Get (header r') "Accept" ≠ "text/event-stream" →
  handlers (trace (ServeHTTP p r w)) = [newHTTPProxy (target_URL t) (tr p) 0%Z].
Proof.
  intros H Ht Ha Hu Hacc.
  destruct (ServeHTTP_served p r w t w' r' H Ht Ha) as (h & -> & ->).
  apply String.eqb_neq in Hu, Hacc. by rewrite Hu, Hacc.
Qed.

End dispatch.
End proxy_facts.

(** *** The dispatcher on the sample requests *)

Module proxy_runs.
Import golib effects proxy proxy_facts.

(** Witness of C4: the upgrade wins over the event stream. *)
Lemma handler_selection_witness :
  sample.ShuttingDown (false, 0%Z) = false
  ∧ sample.target sample.both (false, 0%Z) = (Some sample.backend, (false, 0%Z))
  ∧ design.addHeaders sample.both (cfg sample.fabio)
    = inr (sample.injected sample.both)
  ∧ ∃ h,
      handlers (trace (sample.ServeHTTP sample.fabio sample.both (false, 0%Z))) = [h]
      ∧ (Header_Get (header (sample.injected sample.both)) "Upgrade" = "websocket" →
         h = newRawProxy (target_URL sample.backend))
      ∧ (Header_Get (header (sample.injected sample.both)) "Upgrade" ≠ "websocket" →
         Header_Get (header (sample.injected sample.both)) "Accept"
         = "text/event-stream" →
         h = newHTTPProxy (target_URL sample.backend) (tr sample.fabio)
               (FlushInterval (cfg sample.fabio)))
      ∧ (Header_Get (header (sample.injected sample.both)) "Upgrade" ≠ "websocket" →
         Header_Get (header (sample.injected sample.both)) "Accept"
         ≠ "text/event-stream" →
         h = newHTTPProxy (target_URL sample.backend) (tr sample.fabio) 0%Z).
Proof.
  split; [reflexivity|]. split; [reflexivity|]. split; [reflexivity|].
  apply (handler_selection sample.ShuttingDown sample.target design.addHeaders
           sample.Now sample.fabio sample.both (false, 0%Z) sample.backend
           (false, 0%Z) (sample.injected sample.both));
    reflexivity.
Defined.

(** The headers are read after the injection: a proxy that is configured
    to write the client IP into Upgrade never sees websocket there. *)
Example client_ip_header_shadows_upgrade :
  handlers (trace (sample.ServeHTTP sample.shadowing sample.both (false, 0%Z)))
  = [newHTTPProxy "http://10.0.0.7:8080/" "http.DefaultTransport" 1000000000%Z].
Proof. by vm_compute. Qed.

Example upgrade_wins :
  handlers (trace (sample.ServeHTTP sample.fabio sample.both (false, 0%Z)))
  = [newRawProxy "http://10.0.0.7:8080/"].
Proof. by vm_compute. Qed.

(** Witness of C5. *)
Lemma shutdown_gate_witness :
  sample.ShuttingDown (true, 0%Z) = true
  ∧ sample.ServeHTTP sample.fabio sample.both (true, 0%Z)
    = (tt, (true, 0%Z), [http_Error "shutting down" 503%Z])
  ∧ lookups (trace (sample.ServeHTTP sample.fabio sample.both (true, 0%Z))) = [].
Proof.
  split; [reflexivity|].
  apply (shutdown_gate_503 sample.ShuttingDown sample.target design.addHeaders
           sample.Now sample.fabio sample.both (true, 0%Z)).
  reflexivity.
Defined.

(** Witness of C8: no route for another host. *)
Lemma no_route_witness :
  sample.ShuttingDown (false, 0%Z) = false
  ∧ sample.target (sample.request "other.org" "192.0.2.1:4711" ∅) (false, 0%Z)
    = (None, (false, 0%Z))
  ∧ sample.ServeHTTP sample.fabio
      (sample.request "other.org" "192.0.2.1:4711" ∅) (false, 0%Z)
    = (tt, (false, 0%Z),
       [Lookup (sample.request "other.org" "192.0.2.1:4711" ∅);
        WriteHeader (NoRouteStatus (cfg sample.fabio))])
  ∧ Forall (λ e, writesBody e = false)
      (trace (sample.ServeHTTP sample.fabio
                (sample.request "other.org" "192.0.2.1:4711" ∅) (false, 0%Z))).
Proof.
  split; [reflexivity|]. split; [reflexivity|].
  apply (no_route_status sample.ShuttingDown sample.target design.addHeaders
           sample.Now sample.fabio
           (sample.request "other.org" "192.0.2.1:4711" ∅) (false, 0%Z)
           (false, 0%Z));
    reflexivity.
Defined.

(** A remote address without a port: the dispatcher answers 500 by
    itself and touches no timer. *)
Example cannot_parse_remote_address :
  sample.ServeHTTP sample.fabio (sample.request "example.com" "nowhere" ∅)
    (false, 0%Z)
  = (tt, (false, 0%Z),
     [Lookup (sample.request "example.com" "nowhere" ∅);
      http_Error "cannot parse nowhere" 500%Z])
  ∧ timerUpdates
      (trace (sample.ServeHTTP sample.fabio
                (sample.request "example.com" "nowhere" ∅) (false, 0%Z)))
    = [].
Proof. split; by vm_compute. Qed.

(** A request that is served: the handler runs between the lookup and the
    two timer updates. *)
Example served_request_updates_both_timers :
  trace (sample.ServeHTTP sample.fabio sample.lookalike (false, 7%Z))
  = [Lookup sample.lookalike;
     Handler_ServeHTTP
       (newHTTPProxy "http://10.0.0.7:8080/" "http.DefaultTransport" 0%Z)
       (sample.injected sample.lookalike);
     UpdateSince "requests" 7%Z;
     UpdateSince "web.example_com./.10_0_0_7_8080" 7%Z].
Proof. by vm_compute. Qed.

(** Witness of C10: WebSocket is not websocket, and an Accept value that
    lists text/event-stream among others is not text/event-stream. *)
Lemma header_match_witness :
  sample.ShuttingDown (false, 0%Z) = false
  ∧ sample.target sample.lookalike (false, 0%Z)
    = (Some sample.backend, (false, 0%Z))
  ∧ design.addHeaders sample.lookalike (cfg sample.fabio)
    = inr (sample.injected sample.lookalike)
  ∧ Header_Get (header (sample.injected sample.lookalike)) "Upgrade" = "WebSocket"
  ∧ Header_Get (header (sample.injected sample.lookalike)) "Accept"
    = "text/event-stream, */*"
  ∧ handlers (trace (sample.ServeHTTP sample.fabio sample.lookalike (false, 0%Z)))
    = [newHTTPProxy (target_URL sample.backend) (tr sample.fabio) 0%Z].
Proof.
  split; [reflexivity|]. split; [reflexivity|]. split; [reflexivity|].
  split; [reflexivity|]. split; [reflexivity|].
  apply (header_match_is_exact sample.ShuttingDown sample.target
           design.addHeaders sample.Now sample.fabio sample.lookalike
           (false, 0%Z) sample.backend (false, 0%Z)
           (sample.injected sample.lookalike));
    try reflexivity; intros Heq; vm_compute in Heq; discriminate Heq.
Defined.

End proxy_runs.

(** ** More about the catalog reader *)

Module consul_more.
Import golib effects api consul design shape golib_facts consul_facts.

Section service.
Context {W : Type}.
Variable GOOS : string.
Variable unicodeIsPrint : N -> bool.
Variable mapiterinit : W -> list nat.
Variable parseURLPrefixTag :
  string -> string -> gmap string string -> option (string * string).
Variable passingServices :
  list HealthCheck.t -> list string -> list HealthCheck.t.
Variable client : Client W.

Local Abbreviation routeLine := (routeLine GOOS unicodeIsPrint).
Local Abbreviation rangeTags := (rangeTags GOOS unicodeIsPrint parseURLPrefixTag).
Local Abbreviation rangeSvcs := (rangeSvcs GOOS unicodeIsPrint parseURLPrefixTag).
Local Abbreviation rangeDatacenters :=
  (rangeDatacenters GOOS unicodeIsPrint parseURLPrefixTag client).
Local Abbreviation serviceConfig :=
  (serviceConfig GOOS unicodeIsPrint parseURLPrefixTag client).
Local Abbreviation rangeServices :=
  (rangeServices GOOS unicodeIsPrint parseURLPrefixTag client).
Local Abbreviation collectConfig :=
  (collectConfig GOOS unicodeIsPrint mapiterinit parseURLPrefixTag client).
Local Abbreviation sortedConfig :=
  (sortedConfig GOOS unicodeIsPrint mapiterinit parseURLPrefixTag client).
Local Abbreviation servicesConfig :=
  (servicesConfig GOOS unicodeIsPrint mapiterinit parseURLPrefixTag client).
Local Abbreviation tagLines := (tagLines GOOS unicodeIsPrint parseURLPrefixTag).
Local Abbreviation instanceLines :=
  (instanceLines GOOS unicodeIsPrint parseURLPrefixTag).
Local Abbreviation readsLines := (readsLines GOOS unicodeIsPrint parseURLPrefixTag).
Local Abbreviation lineOf := (lineOf GOOS unicodeIsPrint parseURLPrefixTag).

Lemma rangeTags_app svc tagPrefix dc tags config :
  rangeTags svc tagPrefix {[ "DC" := dc ]} tags config
  = config
    ++ omap
         (fun tag =>
            (fun hp : string * string => routeLine svc hp.1 hp.2)
            <$> parseURLPrefixTag tag tagPrefix {[ "DC" := dc ]})
         tags.
Proof.
  revert config. induction tags as [|tag tags IH]; intros config; simpl.
  - by rewrite app_nil_r.
  - destruct (parseURLPrefixTag tag tagPrefix _) as [[host path]|]; simpl.
    + by rewrite IH, <-(assoc_L (++)).
    + apply IH.
Qed.

Lemma rangeSvcs_app passing tagPrefix dc svcs config :
  rangeSvcs passing tagPrefix {[ "DC" := dc ]} svcs config
  = config ++ instanceLines passing tagPrefix dc svcs.
Proof.
  revert config. induction svcs as [|svc svcs IH]; intros config; simpl.
  - by rewrite app_nil_r.
  - destruct (passing !! CatalogService.ServiceID svc).
    + rewrite IH, rangeTags_app. by rewrite <-(assoc_L (++)).
    + by rewrite IH.
Qed.

Lemma rangeDatacenters_reads name passing tagPrefix dcs config w :
  value (rangeDatacenters name passing tagPrefix dcs config w)
  = (fun reads => config ++ readsLines passing tagPrefix reads)
    <$> catalogReads client name dcs w.
Proof.
  revert config w. induction dcs as [|dc dcs IH]; intros config w; run.
  - by rewrite app_nil_r.
  - match goal with |- context [Catalog_Service client name "" ?q w] =>
      destruct (Catalog_Service client name "" q w) as [[svcs|err] w1]
    end; run; [|done].
    specialize (IH (rangeSvcs passing tagPrefix {[ "DC" := dc ]} svcs config) w1).
    destruct (rangeDatacenters _ _ _ _ _ w1) as [[r w2] t2]. run. rewrite IH.
    destruct (catalogReads client name dcs w1) as [reads|]; simpl; [|done].
    rewrite rangeSvcs_app. by rewrite <-(assoc_L (++)).
Qed.

(** Either all the catalog reads of a service succeed and nothing is
    logged, or one fails, which costs its warning and the result. *)
Lemma rangeDatacenters_trace name passing tagPrefix dcs config w :
  (is_Some (value (rangeDatacenters name passing tagPrefix dcs config w))
   ∧ trace (rangeDatacenters name passing tagPrefix dcs config w) = [])
  ∨ (value (rangeDatacenters name passing tagPrefix dcs config w) = None
     ∧ ∃ err,
         trace (rangeDatacenters name passing tagPrefix dcs config w)
         = [LogPrintf ("[WARN] consul: Error getting catalog service "
                         +:+ name +:+ ". " +:+ err)]).
Proof.
  revert config w. induction dcs as [|dc dcs IH]; intros config w; run.
  - left. eauto.
  - match goal with |- context [Catalog_Service client name "" ?q w] =>
      destruct (Catalog_Service client name "" q w) as [[svcs|err] w1]
    end; run; [|right; eauto].
    specialize (IH (rangeSvcs passing tagPrefix {[ "DC" := dc ]} svcs config) w1).
    by destruct (rangeDatacenters _ _ _ _ _ w1) as [[r w2] t2].
Qed.

(** X1. With a name, a passing-set that is not empty and the list of
    datacenters at hand, [serviceConfig] returns nothing when one of its
    catalog reads fails and otherwise exactly one line for every tag that
    parses of every instance whose ID is in the passing-set, in the order
    of the datacenters, then of the instances, then of the tags. *)
Theorem serviceConfig_in_catalog_order name passing tagPrefix w dcs w1 :
  name ≠ "" → passing ≠ ∅ →
  Catalog_Datacenters client w = (Ok dcs, w1) →
  value (serviceConfig name passing tagPrefix w)
  = match catalogReads client name dcs w1 with
    | Some reads => readsLines passing tagPrefix reads
    | None => []
    end.
Proof.
  intros Hname Hpassing Hdcs. unfold consul.serviceConfig.
  apply String.eqb_neq in Hname. rewrite Hname.
  apply map_size_non_empty_iff, Nat.eqb_neq in Hpassing. rewrite Hpassing.
  run. rewrite Hdcs. run.
  pose proof (rangeDatacenters_reads name passing tagPrefix dcs [] w1) as Hr.
  destruct (rangeDatacenters name passing tagPrefix dcs [] w1) as [[r w2] t2].
  run. rewrite Hr. by destruct (catalogReads client name dcs w1).
Qed.

(** X2. [serviceConfig] logs at most one warning, and when it logs one
    it returns no line at all: the lines of the datacenters read before
    the failure are dropped with it. *)
Theorem serviceConfig_warning_means_nothing name passing tagPrefix w :
  trace (serviceConfig name passing tagPrefix w) = []
  ∨ (value (serviceConfig name passing tagPrefix w) = []
     ∧ ∃ line, trace (serviceConfig name passing tagPrefix w) = [LogPrintf line]).
Proof.
  unfold consul.serviceConfig. destruct (_ || _); run; [by left|].
  destruct (Catalog_Datacenters client w) as [[dcs|err] w1]; run;
    [|right; eauto].
  destruct (rangeDatacenters_trace name passing tagPrefix dcs [] w1)
    as [[_ Ht]|[Hv [err Ht]]];
    destruct (rangeDatacenters name passing tagPrefix dcs [] w1)
      as [[r w2] t2]; run; subst.
  - by left.
  - right. eauto.
Qed.

(** X3. The test for a .local suffix in [serviceConfig] decides nothing:
    on darwin an address gets .local appended exactly when it has no dot,
    and on every other system no address is changed. *)
Theorem local_suffix_rule svc host path :
  ∃ addr,
    routeLine svc host path
    = "route add " +:+ CatalogService.ServiceName svc +:+ " " +:+ host +:+ path
      +:+ " http://" +:+ addr +:+ ":" +:+ fmt_d (CatalogService.ServicePort svc)
      +:+ "/ tags "
      +:+ Quote unicodeIsPrint (Join (CatalogService.ServiceTags svc) ",")
    ∧ (GOOS = "darwin" → noDot (instanceAddr svc) →
       addr = instanceAddr svc +:+ ".local")
    ∧ (GOOS ≠ "darwin" → addr = instanceAddr svc)
    ∧ (¬ noDot (instanceAddr svc) → addr = instanceAddr svc).
Proof.
  destruct (routeLine_addr GOOS unicodeIsPrint parseURLPrefixTag svc) as (addr & Hline & Hd & Ho).
  exists addr. split; [apply Hline|].
  assert (noDot (instanceAddr svc) → noLocalSuffix (instanceAddr svc)) as Hsuf.
  { intros Hdot pre Heq. apply (Hdot pre "local"). by rewrite Heq. }
  split_and!.
  - intros Hos Hdot. apply Hd. auto.
  - intros Hos. apply Ho. by intros [? _].
  - intros Hdot. apply Ho. by intros (_ & ? & _).
Qed.

(** *** The passing-sets *)

Lemma passingMap_sets checks name passing :
  passingMap checks !! name = Some passing →
  passing ≠ ∅ ∧ ∀ id b, passing !! id = Some b → b = true.
Proof.
  revert name passing. induction checks as [|c checks IH] using rev_ind;
    intros name passing Hm.
  - unfold passingMap in Hm. simpl in Hm. by rewrite lookup_empty in Hm.
  - rewrite passingMap_snoc in Hm. case_decide as Hn; [|by eapply IH].
    simplify_eq. split.
    + apply insert_non_empty.
    + intros id b. destruct (decide (HealthCheck.ServiceID c = id)) as [->|Hne].
      * rewrite lookup_insert_eq. by intros [= <-].
      * rewrite lookup_insert_ne by done.
        destruct (passingMap checks !! HealthCheck.ServiceName c) as [p|] eqn:Hp.
        -- simpl. intros Hb. by eapply (proj2 (IH _ _ Hp)).
        -- simpl. by rewrite lookup_empty.
Qed.

Lemma passingMap_named checks name passing :
  passingMap checks !! name = Some passing →
  ∃ c, c ∈ checks ∧ HealthCheck.ServiceName c = name.
Proof.
  intros Hm. destruct (passingMap_sets checks name passing Hm) as [Hne _].
  apply map_choose in Hne as (id & b & Hid).
  destruct (proj1 (passingMap_spec checks name id)) as (c & ? & ? & _); [|by eauto].
  exists passing. eauto.
Qed.

(** X4. The map that [servicesConfig] builds has a passing-set exactly
    for the service names of the checks; no passing-set is empty, so the
    test for an empty set in [serviceConfig] never fires for it; a set
    holds exactly the instance IDs of the checks of its service, each
    with the value true. *)
Theorem passing_sets_of_checks checks name :
  (is_Some (passingMap checks !! name)
   ↔ ∃ c, c ∈ checks ∧ HealthCheck.ServiceName c = name)
  ∧ ∀ passing,
      passingMap checks !! name = Some passing →
      passing ≠ ∅
      ∧ ∀ id,
          (passing !! id = Some true
           ↔ ∃ c, c ∈ checks ∧ HealthCheck.ServiceName c = name
                  ∧ HealthCheck.ServiceID c = id)
          ∧ passing !! id ≠ Some false.
Proof.
  split.
  - split.
    + intros [passing Hm]. by eapply passingMap_named.
    + intros (c & Hin & Hname).
      destruct (proj2 (passingMap_spec checks name (HealthCheck.ServiceID c)))
        as (passing & Hm & _); by eauto.
  - intros passing Hm. destruct (passingMap_sets checks name passing Hm) as [Hne Htrue].
    split; [done|]. intros id. split.
    + split.
      * intros Hid. apply passingMap_spec. exists passing. by rewrite Hid.
      * intros Hc. destruct (proj2 (passingMap_spec checks name id) Hc)
          as (passing' & Hm' & [b Hb]).
        rewrite Hm in Hm'. simplify_eq. by rewrite (Htrue _ _ Hb) in Hb.
    + intros Hid. by apply Htrue in Hid.
Qed.

(** *** What [servicesConfig] does besides returning the document *)

Lemma serviceConfig_nameless passing tagPrefix w :
  serviceConfig "" passing tagPrefix w = ([], w, []).
Proof. done. Qed.

Lemma rangeServices_nameless tagPrefix entries config w :
  Forall (λ e : string * gmap string bool, e.1 = "") entries →
  rangeServices tagPrefix entries config w = (config, w, []).
Proof.
  intros Hall. revert config. induction Hall as [|[name passing] entries Hn _ IH];
    intros config; [done|].
  simpl in Hn. subst name. cbn [consul.rangeServices].
  unfold mbind, M_bind. rewrite serviceConfig_nameless, IH.
  by rewrite app_nil_r.
Qed.

(** X5. Checks that name no service, as those of a node are, give the
    empty document, and [servicesConfig] asks consul nothing for them: the
    world is as it was and nothing is logged.  So does an empty list of
    checks. *)
Theorem nameless_checks_give_empty_document checks tagPrefix w :
  (∀ c, c ∈ checks → HealthCheck.ServiceName c = "") →
  servicesConfig checks tagPrefix w = ("", w, []).
Proof.
  intros Hnameless.
  assert (Forall (λ e : string * gmap string bool, e.1 = "")
            (rangeOrder (mapiterinit w) (map_to_list (passingMap checks)))) as Hall.
  { apply Forall_forall. intros [name passing] Hin.
    rewrite rangeOrder_Permutation in Hin. apply elem_of_map_to_list in Hin.
    destruct (passingMap_named checks name passing Hin) as (c & Hc & <-).
    by apply Hnameless. }
  unfold consul.servicesConfig, consul.sortedConfig, consul.collectConfig.
  unfold mbind, M_bind, peek, mret, M_ret.
  by rewrite (rangeServices_nameless _ _ _ _ Hall).
Qed.

Lemma serviceConfig_log name passing tagPrefix w :
  Forall (λ e, isLog e = true) (trace (serviceConfig name passing tagPrefix w))
  ∧ (List.length (trace (serviceConfig name passing tagPrefix w)) ≤ 1)%nat.
Proof.
  unfold consul.serviceConfig. destruct (_ || _); run; [split; [done|lia]|].
  destruct (Catalog_Datacenters client w) as [[dcs|err] w1]; run;
    [|split; [by repeat constructor|lia]].
  destruct (rangeDatacenters_trace name passing tagPrefix dcs [] w1)
    as [[_ Ht]|[_ [err Ht]]];
    destruct (rangeDatacenters name passing tagPrefix dcs [] w1)
      as [[r w2] t2]; run; subst; simpl.
  - split; [done|lia].
  - split; [by repeat constructor|lia].
Qed.

Lemma rangeServices_log tagPrefix entries config w :
  Forall (λ e, isLog e = true) (trace (rangeServices tagPrefix entries config w))
  ∧ (List.length (trace (rangeServices tagPrefix entries config w))
     ≤ List.length entries)%nat.
Proof.
  revert config w. induction entries as [|[name passing] entries IH];
    intros config w; run; [split; [done|lia]|].
  destruct (serviceConfig_log name passing tagPrefix w) as [Hl1 Hn1].
  destruct (serviceConfig name passing tagPrefix w) as [[cfg w1] t1].
  destruct (IH (config ++ cfg) w1) as [Hl2 Hn2].
  destruct (rangeServices _ _ _ w1) as [[r w2] t2]. run.
  rewrite Forall_app, List.length_app. split; [done|lia].
Qed.

(** X6. All that [servicesConfig] leaves in the trace are lines of the
    log, at most one for each service name of the checks: it does not
    sleep and it does not send. *)
Theorem servicesConfig_only_warns checks tagPrefix w :
  Forall (λ e, isLog e = true) (trace (servicesConfig checks tagPrefix w))
  ∧ (List.length (trace (servicesConfig checks tagPrefix w))
     ≤ size (passingMap checks))%nat.
Proof.
  unfold consul.servicesConfig, consul.sortedConfig, consul.collectConfig. run.
  pose proof (rangeServices_log tagPrefix
    (rangeOrder (mapiterinit w) (map_to_list (passingMap checks))) [] w) as [Hl Hn].
  destruct (rangeServices _ _ _ w) as [[r w2] t2]. run.
  rewrite !app_nil_r. split; [done|].
  by rewrite (Permutation_length (rangeOrder_Permutation _ _)),
    length_map_to_list in Hn.
Qed.

(** *** A catalog that answers the same at every moment *)

Section stateless.
Variable dcs : result (list string).
Variable svcsOf : string → string → result (list CatalogService.t).

Local Abbreviation serviceLines :=
  (serviceLines GOOS unicodeIsPrint parseURLPrefixTag dcs svcsOf).

Lemma catalogReads_stateless name dcs' w :
  (∀ name dc w,
     (Catalog_Service client name ""
        {| Datacenter := dc; RequireConsistent := true; WaitIndex := 0 |} w).1
     = svcsOf name dc) →
  catalogReads client name dcs' w = statelessReads svcsOf name dcs'.
Proof.
  intros Hstateless. revert w.
  induction dcs' as [|dc dcs' IH]; intros w; simpl; [done|].
  pose proof (Hstateless name dc w) as Hs.
  destruct (Catalog_Service client name "" _ w) as [r w1]. simpl in Hs.
  rewrite Hs. destruct (svcsOf name dc); simpl; [by rewrite IH|reflexivity].
Qed.

Lemma serviceConfig_stateless name passing tagPrefix w :
  Stateless client dcs svcsOf →
  value (serviceConfig name passing tagPrefix w)
  = serviceLines tagPrefix name passing.
Proof.
  intros Hstateless. unfold consul.serviceConfig, shape.serviceLines.
  destruct (_ || _); [done|]. run.
  pose proof (proj1 Hstateless w) as Hd.
  destruct (Catalog_Datacenters client w) as [r w1]. simpl in Hd. subst r.
  destruct dcs as [dcs'|err]; run; [|done].
  pose proof (rangeDatacenters_reads name passing tagPrefix dcs' [] w1) as Hr.
  destruct (rangeDatacenters name passing tagPrefix dcs' [] w1) as [[r w2] t2].
  run. rewrite Hr, (catalogReads_stateless _ _ _ (proj2 Hstateless)).
  by destruct (statelessReads svcsOf name dcs').
Qed.

Lemma rangeServices_stateless tagPrefix entries config w :
  Stateless client dcs svcsOf →
  value (rangeServices tagPrefix entries config w)
  = config ++ (entries ≫= λ e, serviceLines tagPrefix e.1 e.2).
Proof.
  intros Hstateless. revert config w. induction entries as [|[name passing] entries IH];
    intros config w; run; [by rewrite app_nil_r|].
  pose proof (serviceConfig_stateless name passing tagPrefix w Hstateless) as Hs.
  destruct (serviceConfig name passing tagPrefix w) as [[cfg w1] t1].
  specialize (IH (config ++ cfg) w1).
  destruct (rangeServices _ _ _ w1) as [[r w2] t2]. run. subst.
  by rewrite <-(assoc_L (++)).
Qed.

Lemma sortedConfig_stateless (mapiter : W → list nat) checks tagPrefix w :
  Stateless client dcs svcsOf →
  value (consul.sortedConfig GOOS unicodeIsPrint mapiter parseURLPrefixTag
           client checks tagPrefix w)
  = SortReverse
      (map_to_list (passingMap checks) ≫= λ e, serviceLines tagPrefix e.1 e.2).
Proof.
  intros Hstateless. rewrite sortedConfig_value. unfold consul.collectConfig. run.
  pose proof (rangeServices_stateless tagPrefix
    (rangeOrder (mapiter w) (map_to_list (passingMap checks))) [] w Hstateless)
    as Hr.
  destruct (rangeServices _ _ _ w) as [[r w2] t2]. run. subst r.
  symmetry. apply SortReverse_unique.
  - rewrite SortReverse_Permutation. by rewrite rangeOrder_Permutation.
  - apply Sorted_merge_sort. apply _.
Qed.

(** X7. On a catalog that answers the same at every moment the document
    is the sorted lines of the services of the map, whatever order the
    runtime walks the map in and whatever moment the turn starts at: the
    order of [range] over a map does not show in the document. *)
Theorem document_independent_of_map_order
    (mapiter mapiter' : W → list nat) checks tagPrefix w w' :
  Stateless client dcs svcsOf →
  value (consul.servicesConfig GOOS unicodeIsPrint mapiter parseURLPrefixTag
           client checks tagPrefix w)
  = Join
      (SortReverse
         (map_to_list (passingMap checks)
          ≫= λ e, serviceLines tagPrefix e.1 e.2))
      newline
  ∧ value (consul.servicesConfig GOOS unicodeIsPrint mapiter parseURLPrefixTag
             client checks tagPrefix w)
    = value (consul.servicesConfig GOOS unicodeIsPrint mapiter' parseURLPrefixTag
               client checks tagPrefix w').
Proof.
  intros Hstateless.
  rewrite !servicesConfig_value, !sortedConfig_stateless by done. done.
Qed.

End stateless.

Lemma sortedConfig_stateless_elem
    (dcs : list string) (svcsOf : string → string → list CatalogService.t)
    checks tagPrefix w line :
  Stateless client (Ok dcs) (λ name dc, Ok (svcsOf name dc)) →
  line ∈ value (sortedConfig checks tagPrefix w)
  ↔ ∃ name passing dc svc,
      name ≠ ""
      ∧ passingMap checks !! name = Some passing
      ∧ dc ∈ dcs
      ∧ svc ∈ svcsOf name dc
      ∧ is_Some (passing !! CatalogService.ServiceID svc)
      ∧ lineOf tagPrefix dc svc line.
Proof.
  intros Hs.
  rewrite (sortedConfig_stateless _ _ _ _ _ _ Hs), (SortReverse_Permutation _).
  assert (∀ name dcs',
    statelessReads (λ name dc, Ok (svcsOf name dc)) name dcs'
    = Some ((λ dc, (dc, svcsOf name dc)) <$> dcs')) as Hreads.
  { intros name dcs'. induction dcs' as [|dc dcs' IH]; simpl; [done|].
    by rewrite IH. }
  assert (∀ svc dc, line ∈ tagLines svc tagPrefix dc ↔ lineOf tagPrefix dc svc line)
    as Htags.
  { intros svc dc. unfold shape.tagLines, design.lineOf.
    rewrite list_elem_of_omap. split.
    - intros (tag & Hin & Hp).
      destruct (parseURLPrefixTag tag tagPrefix _) as [[host path]|] eqn:Heq;
        simplify_eq/=. by exists tag, host, path.
    - intros (tag & host & path & Hin & Hp & ->). exists tag.
      by rewrite Hp. }
  rewrite list_elem_of_bind. split.
  - intros ([name passing] & Hin & Hentry). simpl in Hin.
    apply elem_of_map_to_list in Hentry. unfold shape.serviceLines in Hin.
    destruct (String.eqb_spec name "") as [->|Hname]; simpl in Hin;
      [by apply elem_of_nil in Hin|].
    destruct (size passing =? 0)%nat; [by apply elem_of_nil in Hin|].
    rewrite Hreads in Hin. unfold shape.readsLines in Hin.
    apply list_elem_of_bind in Hin as ([dc svcs] & Hin & Hdc).
    apply list_elem_of_fmap in Hdc as (dc' & [= -> ->] & Hdc).
    unfold shape.instanceLines in Hin.
    apply list_elem_of_bind in Hin as (svc & Hin & Hsvc).
    destruct (passing !! CatalogService.ServiceID svc) as [b|] eqn:Hid;
      [|by apply elem_of_nil in Hin].
    exists name, passing, dc', svc. rewrite Hid. split_and!; try done.
    by apply Htags.
  - intros (name & passing & dc & svc & Hname & Hm & Hdc & Hsvc & [b Hid] & Hline).
    exists (name, passing). split; [|by apply elem_of_map_to_list].
    simpl. unfold shape.serviceLines.
    apply String.eqb_neq in Hname. rewrite Hname.
    destruct (passingMap_sets checks name passing Hm) as [Hne _].
    apply map_size_non_empty_iff, Nat.eqb_neq in Hne. rewrite Hne. simpl.
    rewrite Hreads. unfold shape.readsLines.
    apply list_elem_of_bind. exists (dc, svcsOf name dc). split.
    + unfold shape.instanceLines. apply list_elem_of_bind. exists svc.
      rewrite Hid. split; [by apply Htags|done].
    + apply list_elem_of_fmap. by exists dc.
Qed.

(** X8. On a catalog that answers the same at every moment and never
    fails, a line is in the document exactly when it is the line of a tag
    that parses of an instance that the catalog lists, in one of the
    datacenters, under a service name that is not empty, with its ID in
    the passing-set of that name: no such instance is left out. *)
Theorem document_lines_are_the_passing_instances
    (dcs : list string) (svcsOf : string → string → list CatalogService.t)
    checks tagPrefix w line :
  Stateless client (Ok dcs) (λ name dc, Ok (svcsOf name dc)) →
  line ∈ value (sortedConfig checks tagPrefix w)
  ↔ ∃ name passing dc svc,
      name ≠ ""
      ∧ passingMap checks !! name = Some passing
      ∧ dc ∈ dcs
      ∧ svc ∈ svcsOf name dc
      ∧ is_Some (passing !! CatalogService.ServiceID svc)
      ∧ lineOf tagPrefix dc svc line.
Proof. apply sortedConfig_stateless_elem. Qed.

(** The same, read from the health records: the lines of the document
    are those of the instances that a record names. *)
Lemma sortedConfig_stateless_records
    (dcs : list string) (svcsOf : string → string → list CatalogService.t)
    checks tagPrefix w line :
  Stateless client (Ok dcs) (λ name dc, Ok (svcsOf name dc)) →
  line ∈ value (sortedConfig checks tagPrefix w)
  ↔ ∃ c dc svc,
      c ∈ checks
      ∧ HealthCheck.ServiceName c ≠ ""
      ∧ dc ∈ dcs
      ∧ svc ∈ svcsOf (HealthCheck.ServiceName c) dc
      ∧ CatalogService.ServiceID svc = HealthCheck.ServiceID c
      ∧ lineOf tagPrefix dc svc line.
Proof.
  intros Hs. rewrite (sortedConfig_stateless_elem dcs svcsOf) by done. split.
  - intros (name & passing & dc & svc & Hname & Hm & Hdc & Hsvc & Hid & Hline).
    destruct (proj1 (passingMap_spec checks name (CatalogService.ServiceID svc)))
      as (c & Hc & <- & Hcid); [by exists passing|].
    by exists c, dc, svc.
  - intros (c & dc & svc & Hc & Hname & Hdc & Hsvc & Hid & Hline).
    destruct (proj2 (passingMap_spec checks (HealthCheck.ServiceName c)
                       (CatalogService.ServiceID svc)))
      as (passing & Hm & Hp); [by exists c|].
    by exists (HealthCheck.ServiceName c), passing, dc, svc.
Qed.

(** *** An outage of the catalog *)

Lemma rangeServices_outage tagPrefix entries config w :
  (∀ w, ∃ err w', Catalog_Datacenters client w = (Err err, w')) →
  value (rangeServices tagPrefix entries config w) = config.
Proof.
  intros Hout. revert config w. induction entries as [|[name passing] entries IH];
    intros config w; run; [done|].
  assert (value (serviceConfig name passing tagPrefix w) = []) as Hs.
  { unfold consul.serviceConfig. destruct (_ || _); [done|]. run.
    destruct (Hout w) as (err & w' & ->). done. }
  destruct (serviceConfig name passing tagPrefix w) as [[cfg w1] t1].
  specialize (IH (config ++ cfg) w1).
  destruct (rangeServices _ _ _ w1) as [[r w2] t2]. run. subst.
  by rewrite app_nil_r.
Qed.

(** *** The loop of the watcher *)

Section watch.
Variables (tagPrefix : string) (status : list string) (dcIndex : Z)
  (datacenters : list string).

Local Abbreviation rangeRemote := (rangeRemote client dcIndex).
Local Abbreviation watchIteration :=
  (watchIteration GOOS unicodeIsPrint mapiterinit parseURLPrefixTag
     passingServices client tagPrefix status dcIndex datacenters).
Local Abbreviation watchLoop :=
  (watchLoop GOOS unicodeIsPrint mapiterinit parseURLPrefixTag
     passingServices client tagPrefix status dcIndex datacenters).
Local Abbreviation watchServices :=
  (watchServices GOOS unicodeIsPrint mapiterinit parseURLPrefixTag
     passingServices client tagPrefix status dcIndex datacenters).
Local Abbreviation RemoteReads := (RemoteReads client dcIndex).

(** C7. After a local read that succeeded the turn sends exactly one
    document, whether the reads of the other datacenters fail or not: a
    datacenter whose read failed adds no records, only a warning and a
    pause of one second, and the document is what [servicesConfig] makes
    of the local records followed by the records of the datacenters whose
    read succeeded.  On a catalog that answers every read, the same at
    every moment, the lines of that document are exactly the lines of the
    tags that parse of the instances that the catalog lists and that one
    of these records, having passed the status filter, names. *)
Theorem remote_failure_still_publishes dc lastIndex w checks meta w1 :
  index datacenters dcIndex = Some dc →
  Health_State client "any" (localQuery dc lastIndex) w = (Ok (checks, meta), w1) →
  ∃ records w2 t2 doc w3 t3,
    RemoteReads 0 datacenters w1 records w2 t2
    ∧ servicesConfig (passingServices (checks ++ records) status) tagPrefix w2
      = (doc, w3, t3)
    ∧ watchIteration lastIndex w
      = (Some (LastIndex meta), w3,
         LogPrintf ("[WARN] consul: Health changed to #" +:+ fmt_u (LastIndex meta))
           :: t2 ++ t3 ++ [ChanSend doc])
    ∧ sends (trace (watchIteration lastIndex w)) = [doc]
    ∧ ∀ dcs svcsOf,
        Stateless client (Ok dcs) (λ name dc, Ok (svcsOf name dc)) →
        doc = Join (value (sortedConfig (passingServices (checks ++ records) status)
                             tagPrefix w2)) newline
        ∧ ∀ line,
            line ∈ value (sortedConfig (passingServices (checks ++ records) status)
                            tagPrefix w2)
            ↔ ∃ c dc' svc,
                c ∈ passingServices (checks ++ records) status
                ∧ HealthCheck.ServiceName c ≠ ""
                ∧ dc' ∈ dcs
                ∧ svc ∈ svcsOf (HealthCheck.ServiceName c) dc'
                ∧ CatalogService.ServiceID svc = HealthCheck.ServiceID c
                ∧ lineOf tagPrefix dc' svc line.
Proof.
  intros Hi Hh.
  destruct (watchIteration_publishes GOOS unicodeIsPrint mapiterinit
              parseURLPrefixTag passingServices client tagPrefix status dcIndex
              datacenters dc lastIndex w checks meta w1 Hi Hh)
    as (records & w2 & t2 & doc & w3 & t3 & Hr & Hs & Hit & Hsends).
  exists records, w2, t2, doc, w3, t3. split_and!; [done..|].
  intros dcs svcsOf Hstateless. split.
  - pose proof (servicesConfig_value GOOS unicodeIsPrint mapiterinit
                  parseURLPrefixTag client
                  (passingServices (checks ++ records) status) tagPrefix w2) as Hv.
    by rewrite Hs in Hv.
  - intros line. by apply sortedConfig_stateless_records.
Qed.

(** X9. While [Catalog().Datacenters()] fails, every document the
    watcher sends is empty: a turn whose health read succeeded sends its
    document all the same, and with it withdraws every route. *)
Theorem catalog_outage_publishes_empty_document lastIndex w doc :
  (∀ w, ∃ err w', Catalog_Datacenters client w = (Err err, w')) →
  doc ∈ sends (trace (watchIteration lastIndex w)) →
  doc = "".
Proof.
  intros Hout (dc & checks & meta & w1 & records & w2 & t2 & w3 & t3
               & _ & _ & _ & Hs)%watchIteration_sends.
  pose proof (servicesConfig_value GOOS unicodeIsPrint mapiterinit
                parseURLPrefixTag client
                (passingServices (checks ++ records) status) tagPrefix w2) as Hv.
  rewrite Hs, sortedConfig_value in Hv. unfold value in Hv at 1. simpl in Hv.
  subst doc. unfold consul.collectConfig, mbind, M_bind, peek.
  pose proof (rangeServices_outage tagPrefix
    (rangeOrder (mapiterinit w2)
       (map_to_list (passingMap (passingServices (checks ++ records) status))))
    [] w2 Hout) as Hr.
  destruct (rangeServices _ _ _ w2) as [[r w4] t4].
  unfold value in *. simpl in *. by subst r.
Qed.

Lemma watchIteration_in_range lastIndex w :
  is_Some (index datacenters dcIndex) →
  is_Some (value (watchIteration lastIndex w)).
Proof.
  intros [dc Hi].
  destruct (Health_State client "any" (localQuery dc lastIndex) w)
    as [[[checks meta]|err] w1] eqn:Hh.
  - destruct (watchIteration_ok GOOS unicodeIsPrint mapiterinit parseURLPrefixTag
                passingServices client tagPrefix status dcIndex datacenters
                dc lastIndex w checks meta w1 Hi Hh)
      as (? & ? & ? & ? & ? & ? & _ & _ & ->).
    by eexists.
  - rewrite (watchIteration_err GOOS unicodeIsPrint mapiterinit parseURLPrefixTag
               passingServices client tagPrefix status dcIndex datacenters
               dc lastIndex w err w1 Hi Hh).
    by eexists.
Qed.

(** X10. The loop panics exactly when [dcIndex] is no index of
    [datacenters]: then the first turn panics before anything is asked of
    consul or logged; with an index in range any number of turns
    completes. *)
Theorem watcher_panics_iff_index_out_of_range :
  ((0 ≤ dcIndex < Z.of_nat (List.length datacenters))%Z →
   ∀ n w, is_Some (value (watchServices n w)))
  ∧ (¬ (0 ≤ dcIndex < Z.of_nat (List.length datacenters))%Z →
     ∀ n w, watchServices (S n) w = (None, w, [])).
Proof.
  split.
  - intros Hrange. assert (is_Some (index datacenters dcIndex)) as Hi.
    { unfold index. destruct (Z.ltb_spec dcIndex 0) as [?|_]; [lia|].
      apply lookup_lt_is_Some. lia. }
    unfold consul.watchServices. generalize 0%N as lastIndex.
    intros lastIndex n. revert lastIndex.
    induction n as [|n IH]; intros lastIndex w; [by eexists|].
    cbn [consul.watchLoop]. unfold mbind, M_bind.
    destruct (watchIteration_in_range lastIndex w Hi) as [idx Hidx].
    destruct (watchIteration lastIndex w) as [[r w1] t1].
    unfold value in Hidx. simpl in Hidx. subst r.
    specialize (IH idx w1). by destruct (watchLoop n idx w1) as [[r w2] t2].
  - intros Hrange n w. assert (index datacenters dcIndex = None) as Hi.
    { unfold index. destruct (Z.ltb_spec dcIndex 0) as [?|?]; [done|].
      apply lookup_ge_None. lia. }
    unfold consul.watchServices. cbn [consul.watchLoop].
    unfold mbind, M_bind, consul.watchIteration. by rewrite Hi.
Qed.

Lemma watchIteration_sends_le lastIndex w :
  (List.length (sends (trace (watchIteration lastIndex w))) ≤ 1)%nat.
Proof.
  destruct (index datacenters dcIndex) as [dc|] eqn:Hi.
  - destruct (Health_State client "any" (localQuery dc lastIndex) w)
      as [[[checks meta]|err] w1] eqn:Hh.
    + destruct (watchIteration_ok GOOS unicodeIsPrint mapiterinit parseURLPrefixTag
                  passingServices client tagPrefix status dcIndex datacenters
                  dc lastIndex w checks meta w1 Hi Hh)
        as (records & w2 & t2 & doc & w3 & t3 & Hr & Hs & ->).
      unfold trace. simpl.
      rewrite !sends_app, (RemoteReads_sends _ _ _ _ _ _ _ _ Hr).
      pose proof (servicesConfig_sends GOOS unicodeIsPrint mapiterinit
                    parseURLPrefixTag client
                    (passingServices (checks ++ records) status) tagPrefix w2) as Hq.
      rewrite Hs in Hq. unfold trace in Hq. simpl in Hq. rewrite Hq. simpl. lia.
    + rewrite (watchIteration_err GOOS unicodeIsPrint mapiterinit parseURLPrefixTag
                 passingServices client tagPrefix status dcIndex datacenters
                 dc lastIndex w err w1 Hi Hh).
      simpl. lia.
  - unfold consul.watchIteration. rewrite Hi. simpl. lia.
Qed.

(** X11. Over any number of turns the watcher sends at most one document
    for each turn. *)
Theorem at_most_one_document_per_turn n lastIndex w :
  (List.length (sends (trace (watchLoop n lastIndex w))) ≤ n)%nat.
Proof.
  revert lastIndex w. induction n as [|n IH]; intros lastIndex w; [simpl; lia|].
  cbn [consul.watchLoop]. unfold mbind, M_bind.
  pose proof (watchIteration_sends_le lastIndex w) as H1.
  destruct (watchIteration lastIndex w) as [[[idx|] w1] t1].
  - specialize (IH idx w1). destruct (watchLoop n idx w1) as [[r w2] t2].
    unfold trace in *. simpl in *. rewrite sends_app, List.length_app. lia.
  - unfold trace in *. simpl in *. rewrite app_nil_r. lia.
Qed.

Lemma sleeps_app t1 t2 : sleeps (t1 ++ t2) = sleeps t1 ++ sleeps t2.
Proof. apply omap_app. Qed.

Lemma fetchErrors_app t1 t2 :
  fetchErrors (t1 ++ t2) = fetchErrors t1 ++ fetchErrors t2.
Proof. apply omap_app. Qed.

Lemma serviceConfig_quiet name passing p w :
  sleeps (trace (serviceConfig name passing p w)) = []
  ∧ fetchErrors (trace (serviceConfig name passing p w)) = [].
Proof.
  unfold consul.serviceConfig. destruct (_ || _); run; [done|].
  destruct (Catalog_Datacenters client w) as [[dcs|err] w1]; run; [|done].
  destruct (rangeDatacenters_trace name passing p dcs [] w1)
    as [[_ Ht]|[_ [err Ht]]];
    destruct (rangeDatacenters name passing p dcs [] w1) as [[r w2] t2];
    run; subst; done.
Qed.

Lemma rangeServices_quiet p entries config w :
  sleeps (trace (rangeServices p entries config w)) = []
  ∧ fetchErrors (trace (rangeServices p entries config w)) = [].
Proof.
  revert config w. induction entries as [|[name passing] entries IH];
    intros config w; run; [done|].
  destruct (serviceConfig_quiet name passing p w) as [Hs1 Hf1].
  destruct (serviceConfig name passing p w) as [[cfg w1] t1].
  destruct (IH (config ++ cfg) w1) as [Hs2 Hf2].
  destruct (rangeServices _ _ _ w1) as [[r w2] t2]. run.
  by rewrite sleeps_app, fetchErrors_app, Hs1, Hs2, Hf1, Hf2.
Qed.

Lemma servicesConfig_quiet checks p w :
  sleeps (trace (servicesConfig checks p w)) = []
  ∧ fetchErrors (trace (servicesConfig checks p w)) = [].
Proof.
  unfold consul.servicesConfig, consul.sortedConfig, consul.collectConfig. run.
  destruct (rangeServices_quiet p
    (rangeOrder (mapiterinit w) (map_to_list (passingMap checks))) [] w)
    as [Hs Hf].
  destruct (rangeServices _ _ _ w) as [[r w2] t2]. run.
  by rewrite !app_nil_r.
Qed.

Lemma fetchErrors_log line t :
  fetchErrors (LogPrintf line :: t)
  = if HasPrefix line "[WARN] consul: Error fetching health state. "
    then line :: fetchErrors t else fetchErrors t.
Proof.
  unfold fetchErrors, HasPrefix. simpl.
  by destruct (String.prefix _ line).
Qed.

Lemma fetchErrors_fetch err t :
  fetchErrors
    (LogPrintf ("[WARN] consul: Error fetching health state. " +:+ err) :: t)
  = ("[WARN] consul: Error fetching health state. " +:+ err) :: fetchErrors t.
Proof.
  rewrite fetchErrors_log.
  assert (HasPrefix ("[WARN] consul: Error fetching health state. " +:+ err)
            "[WARN] consul: Error fetching health state. " = true) as ->; [|done].
  apply prefix_app. by exists err.
Qed.

Lemma fetchErrors_changed idx t :
  fetchErrors (LogPrintf ("[WARN] consul: Health changed to #" +:+ idx) :: t)
  = fetchErrors t.
Proof. rewrite fetchErrors_log. reflexivity. Qed.

Lemma RemoteReads_sleeps i dcs w records w' t :
  RemoteReads i dcs w records w' t →
  sleeps t = replicate (List.length (fetchErrors t)) Second.
Proof.
  induction 1 as [| |i dc dcs w err w1 records w' t Hne Hh Hr IH|]; [done..| |done].
  rewrite fetchErrors_fetch. simpl. fold (sleeps t). by rewrite IH.
Qed.

Lemma watchIteration_sleeps lastIndex w :
  sleeps (trace (watchIteration lastIndex w))
  = replicate (List.length (fetchErrors (trace (watchIteration lastIndex w))))
      Second.
Proof.
  destruct (index datacenters dcIndex) as [dc|] eqn:Hi.
  - destruct (Health_State client "any" (localQuery dc lastIndex) w)
      as [[[checks meta]|err] w1] eqn:Hh.
    + destruct (watchIteration_ok GOOS unicodeIsPrint mapiterinit parseURLPrefixTag
                  passingServices client tagPrefix status dcIndex datacenters
                  dc lastIndex w checks meta w1 Hi Hh)
        as (records & w2 & t2 & doc & w3 & t3 & Hr & Hs & ->).
      destruct (servicesConfig_quiet (passingServices (checks ++ records) status)
                  tagPrefix w2) as [Hq1 Hq2].
      rewrite Hs in Hq1, Hq2. unfold trace in *. cbn [snd] in *.
      rewrite fetchErrors_changed.
      change (sleeps (LogPrintf ?l :: ?t)) with (sleeps t).
      rewrite !sleeps_app, !fetchErrors_app, Hq1, Hq2. simpl.
      rewrite !app_nil_r. by eapply RemoteReads_sleeps.
    + rewrite (watchIteration_err GOOS unicodeIsPrint mapiterinit
                 parseURLPrefixTag passingServices client tagPrefix status
                 dcIndex datacenters dc lastIndex w err w1 Hi Hh).
      unfold trace. cbn [snd]. by rewrite fetchErrors_fetch.
  - unfold consul.watchIteration. by rewrite Hi.
Qed.

(** X12. The watcher sleeps once, for one second, for every health read
    that failed, that of the local datacenter or of another, and at no
    other time: the pauses of any number of turns are as many seconds as
    the log has warnings about a failed health read. *)
Theorem one_second_pause_per_failed_health_read n lastIndex w :
  sleeps (trace (watchLoop n lastIndex w))
  = replicate (List.length (fetchErrors (trace (watchLoop n lastIndex w))))
      Second.
Proof.
  revert lastIndex w. induction n as [|n IH]; intros lastIndex w; [done|].
  cbn [consul.watchLoop]. unfold mbind, M_bind.
  pose proof (watchIteration_sleeps lastIndex w) as H1.
  destruct (watchIteration lastIndex w) as [[[idx|] w1] t1].
  - specialize (IH idx w1). destruct (watchLoop n idx w1) as [[r w2] t2].
    unfold trace in *. simpl in *.
    by rewrite sleeps_app, fetchErrors_app, List.length_app, replicate_add, H1, IH.
  - unfold trace in *. simpl in *. by rewrite app_nil_r.
Qed.

End watch.
End service.
End consul_more.

(** ** More about the dispatcher *)

Module proxy_more.
Import golib effects proxy shape proxy_facts.

Section dispatch.
Context {W : Type}.
Variable ShuttingDown : W -> bool.
Variable target : Request -> W -> option Target * W.
Variable addHeaders : Request -> config_Proxy -> string + Request.
Variable Now : W -> Z * W.

Local Abbreviation ServeHTTP := (ServeHTTP ShuttingDown target addHeaders Now).

(** The four ways through [ServeHTTP]. *)
Lemma ServeHTTP_cases p r w :
  (ShuttingDown w = true
   ∧ trace (ServeHTTP p r w) = [http_Error "shutting down" 503%Z])
  ∨ (ShuttingDown w = false
     ∧ trace (ServeHTTP p r w) = [Lookup r; WriteHeader (NoRouteStatus (cfg p))])
  ∨ (ShuttingDown w = false
     ∧ (∃ err, addHeaders r (cfg p) = inl err)
     ∧ trace (ServeHTTP p r w)
       = [Lookup r; http_Error ("cannot parse " +:+ RemoteAddr r) 500%Z])
  ∨ (ShuttingDown w = false
     ∧ ∃ h r' t start,
         addHeaders r (cfg p) = inr r'
         ∧ trace (ServeHTTP p r w)
           = [Lookup r; Handler_ServeHTTP h r'; UpdateSince (requests p) start;
              UpdateSince (Timer t) start]).
Proof.
  destruct (ShuttingDown w) eqn:H.
  { left. by rewrite (ServeHTTP_shutdown ShuttingDown target addHeaders Now p r w H). }
  destruct (target r w) as [[t|] w'] eqn:Ht.
  2:{ right. left. by rewrite (ServeHTTP_no_route ShuttingDown target addHeaders Now p r w w' H Ht). }
  destruct (addHeaders r (cfg p)) as [err|r'] eqn:Ha.
  { right. right. left.
    rewrite (ServeHTTP_cannot_parse ShuttingDown target addHeaders Now p r w t w' err H Ht Ha). eauto. }
  right. right. right.
  destruct (ServeHTTP_served ShuttingDown target addHeaders Now p r w t w' r' H Ht Ha) as (h & -> & _).
  split; [done|]. by exists h, r', t, (Now w').1.
Qed.

(** X13. Whatever the request and the state of the proxy, the dispatcher
    answers exactly once: by an error of its own, by a bare status, or by
    handing the request to one handler. *)
Theorem dispatcher_answers_exactly_once p r w :
  List.length (answers (trace (ServeHTTP p r w))) = 1%nat.
Proof.
  destruct (ServeHTTP_cases p r w)
    as [[_ ->]|[[_ ->]|[(_ & _ & ->)|(_ & h & r' & t & start & _ & ->)]]];
    reflexivity.
Qed.

(** X14. A dispatcher that is not shutting down looks the request up
    once, as it was received, before any header is injected; a handler
    is only ever given the request as [addHeaders] returned it. *)
Theorem lookup_before_header_injection p r w :
  ShuttingDown w = false →
  lookups (trace (ServeHTTP p r w)) = [r]
  ∧ ∀ h r', Handler_ServeHTTP h r' ∈ trace (ServeHTTP p r w) →
            addHeaders r (cfg p) = inr r'.
Proof.
  intros H.
  destruct (ServeHTTP_cases p r w)
    as [[H' _]|[[_ ->]|[(_ & _ & ->)|(_ & h & r' & t & start & Ha & ->)]]].
  - congruence.
  - split; [done|]. intros h r' Hin.
    apply elem_of_cons in Hin as [?|Hin]; [done|].
    apply list_elem_of_singleton in Hin. done.
  - split; [done|]. intros h r' Hin.
    apply elem_of_cons in Hin as [?|Hin]; [done|].
    apply list_elem_of_singleton in Hin. done.
  - split; [done|]. intros h0 r0 Hin.
    apply elem_of_cons in Hin as [?|Hin]; [done|].
    apply elem_of_cons in Hin as [Heq|Hin]; [by simplify_eq|].
    apply elem_of_cons in Hin as [?|Hin]; [done|].
    apply list_elem_of_singleton in Hin. done.
Qed.

(** X15. When [addHeaders] fails the dispatcher answers 500 with the text
    cannot parse followed by the remote address of the request; the error
    that [addHeaders] returned is not shown, and no handler is called. *)
Theorem header_error_answers_500 p r w t w' err :
  ShuttingDown w = false → target r w = (Some t, w') →
  addHeaders r (cfg p) = inl err →
  ServeHTTP p r w
  = (tt, w', [Lookup r; http_Error ("cannot parse " +:+ RemoteAddr r) 500%Z])
  ∧ handlers (trace (ServeHTTP p r w)) = [].
Proof.
  intros H Ht Ha.
  rewrite (ServeHTTP_cannot_parse ShuttingDown target addHeaders Now p r w t w' err H Ht Ha).
  split; reflexivity.
Qed.

(** X16. The flush interval must be above zero to show: with a
    FlushInterval of zero every request without a websocket upgrade gets
    the same HTTP handler, whether or not it accepts an event stream. *)
Theorem zero_flush_interval_has_no_effect p r w t w' r' :
  ShuttingDown w = false → target r w = (Some t, w') →
  addHeaders r (cfg p) = inr r' →
  FlushInterval (cfg p) = 0%Z →
  Header_Get (header r') "Upgrade" ≠ "websocket" →
  handlers (trace (ServeHTTP p r w)) = [newHTTPProxy (target_URL t) (tr p) 0%Z].
Proof.
  intros H Ht Ha Hflush Hu.
  destruct (ServeHTTP_served ShuttingDown target addHeaders Now p r w t w' r' H Ht Ha) as (h & -> & ->).
  apply String.eqb_neq in Hu. rewrite Hu, Hflush.
  by destruct (String.eqb _ "text/event-stream").
Qed.

End dispatch.
End proxy_more.

(** ** Runs of the sample deployment, continued *)

Module more_runs.
Import golib effects api consul design shape.

(** The sample agent answers the same at every moment. *)
Lemma agent_Stateless failures checks svcs :
  Stateless (sample.agent failures checks svcs) (Ok ["dc1"])
    (λ name dc, Ok (cases.listing svcs name dc)).
Proof. split; intros; reflexivity. Qed.

(** Witness of X1: the passing instance of the sample catalog. *)
Lemma serviceConfig_in_catalog_order_witness :
  "web" ≠ ""
  ∧ ({[ "web-1" := true ]} : gmap string bool) ≠ ∅
  ∧ Catalog_Datacenters (sample.agent 0 [] [sample.web1; sample.web2]) 0%nat
    = (Ok ["dc1"], 1%nat)
  ∧ value (sample.serviceConfig (sample.agent 0 [] [sample.web1; sample.web2])
             "web" {[ "web-1" := true ]} "urlprefix-" 0%nat)
    = match catalogReads (sample.agent 0 [] [sample.web1; sample.web2])
              "web" ["dc1"] 1%nat with
      | Some reads =>
          readsLines "linux" sample.unicodeIsPrint design.parseURLPrefixTag
            {[ "web-1" := true ]} "urlprefix-" reads
      | None => []
      end.
Proof.
  assert ("web" ≠ "") as Hname by discriminate.
  assert (({[ "web-1" := true ]} : gmap string bool) ≠ ∅) as Hpassing
    by apply map_non_empty_singleton.
  split; [exact Hname|]. split; [exact Hpassing|]. split; [reflexivity|].
  apply (consul_more.serviceConfig_in_catalog_order "linux" sample.unicodeIsPrint
           design.parseURLPrefixTag (sample.agent 0 [] [sample.web1; sample.web2])
           "web" {[ "web-1" := true ]} "urlprefix-" 0%nat ["dc1"] 1%nat
           Hname Hpassing).
  reflexivity.
Defined.

(** The lines of that run. *)
Example serviceConfig_web :
  value (sample.serviceConfig (sample.agent 0 [] [sample.web1; sample.web2])
           "web" {[ "web-1" := true ]} "urlprefix-" 0%nat)
  = [sample.webLine].
Proof. by vm_compute. Qed.

(** Witness of X5: the health check of a node alone. *)
Lemma nameless_checks_witness :
  (∀ c, c ∈ [cases.serfHealth] → HealthCheck.ServiceName c = "")
  ∧ sample.servicesConfig (sample.agent 0 [] [sample.web1]) [cases.serfHealth]
      "urlprefix-" 0%nat
    = ("", 0%nat, []).
Proof.
  assert (∀ c, c ∈ [cases.serfHealth] → HealthCheck.ServiceName c = "") as H.
  { intros c Hin. apply list_elem_of_singleton in Hin. by subst. }
  split; [exact H|].
  exact (consul_more.nameless_checks_give_empty_document "linux"
           sample.unicodeIsPrint sample.mapiterinit design.parseURLPrefixTag
           (sample.agent 0 [] [sample.web1]) [cases.serfHealth] "urlprefix-"
           0%nat H).
Defined.

(** Witness of X7: two services, walked in two orders at two moments. *)
Lemma map_order_witness :
  Stateless (sample.agent 0 [] [sample.web1; cases.api1]) (Ok ["dc1"])
    (λ name dc, Ok (cases.listing [sample.web1; cases.api1] name dc))
  ∧ value (consul.servicesConfig "linux" sample.unicodeIsPrint
             sample.mapiterinit design.parseURLPrefixTag
             (sample.agent 0 [] [sample.web1; cases.api1]) cases.twoChecks
             "urlprefix-" 0%nat)
    = Join
        (SortReverse
           (map_to_list (passingMap cases.twoChecks)
            ≫= λ e, serviceLines "linux" sample.unicodeIsPrint
                      design.parseURLPrefixTag (Ok ["dc1"])
                      (λ name dc,
                         Ok (cases.listing [sample.web1; cases.api1] name dc))
                      "urlprefix-" e.1 e.2))
        newline
  ∧ value (consul.servicesConfig "linux" sample.unicodeIsPrint
             sample.mapiterinit design.parseURLPrefixTag
             (sample.agent 0 [] [sample.web1; cases.api1]) cases.twoChecks
             "urlprefix-" 0%nat)
    = value (consul.servicesConfig "linux" sample.unicodeIsPrint
               cases.mapiterinit' design.parseURLPrefixTag
               (sample.agent 0 [] [sample.web1; cases.api1]) cases.twoChecks
               "urlprefix-" 4%nat).
Proof.
  assert (Stateless (sample.agent 0 [] [sample.web1; cases.api1]) (Ok ["dc1"])
            (λ name dc, Ok (cases.listing [sample.web1; cases.api1] name dc)))
    as H by (split; intros; reflexivity).
  split; [exact H|].
  exact (consul_more.document_independent_of_map_order "linux"
           sample.unicodeIsPrint design.parseURLPrefixTag
           (sample.agent 0 [] [sample.web1; cases.api1]) (Ok ["dc1"])
           (λ name dc, Ok (cases.listing [sample.web1; cases.api1] name dc))
           sample.mapiterinit cases.mapiterinit' cases.twoChecks "urlprefix-"
           0%nat 4%nat H).
Defined.

(** The two walks do visit the services in different orders. *)
Example two_walks_differ :
  rangeOrder (sample.mapiterinit 0%nat) (map_to_list (passingMap cases.twoChecks))
  ≠ rangeOrder (cases.mapiterinit' 4%nat)
      (map_to_list (passingMap cases.twoChecks)).
Proof. intros H. apply (f_equal (fmap fst)) in H. vm_compute in H. discriminate. Qed.

(** Witness of X8: the line of the passing instance of the sample. *)
Lemma passing_instances_witness :
  Stateless (sample.agent 0 [] [sample.web1; sample.web2]) (Ok ["dc1"])
    (λ name dc, Ok (cases.listing [sample.web1; sample.web2] name dc))
  ∧ (sample.webLine
       ∈ value (sample.sortedConfig (sample.agent 0 [] [sample.web1; sample.web2])
                  (design.passingServices sample.webChecks ["passing"])
                  "urlprefix-" 0%nat)
     ↔ ∃ name passing dc svc,
         name ≠ ""
         ∧ passingMap (design.passingServices sample.webChecks ["passing"]) !! name
           = Some passing
         ∧ dc ∈ ["dc1"]
         ∧ svc ∈ cases.listing [sample.web1; sample.web2] name dc
         ∧ is_Some (passing !! CatalogService.ServiceID svc)
         ∧ lineOf "linux" sample.unicodeIsPrint design.parseURLPrefixTag
             "urlprefix-" dc svc sample.webLine).
Proof.
  assert (Stateless (sample.agent 0 [] [sample.web1; sample.web2]) (Ok ["dc1"])
            (λ name dc, Ok (cases.listing [sample.web1; sample.web2] name dc)))
    as H by (split; intros; reflexivity).
  split; [exact H|].
  exact (consul_more.document_lines_are_the_passing_instances "linux"
           sample.unicodeIsPrint sample.mapiterinit design.parseURLPrefixTag
           (sample.agent 0 [] [sample.web1; sample.web2]) ["dc1"]
           (cases.listing [sample.web1; sample.web2])
           (design.passingServices sample.webChecks ["passing"]) "urlprefix-"
           0%nat sample.webLine H).
Defined.

(** Witness of X9: the health reads pass, the catalog is down. *)
Lemma catalog_outage_witness :
  (∀ w, ∃ err w', Catalog_Datacenters cases.outage w = (Err err, w'))
  ∧ "" ∈ sends (trace (sample.watchIteration cases.outage "urlprefix-"
                         ["passing"] 0 ["dc1"] 0%N 0%nat))
  ∧ "" = "".
Proof.
  assert (∀ w, ∃ err w', Catalog_Datacenters cases.outage w = (Err err, w'))
    as Hout by (intros w; eexists _, _; reflexivity).
  assert ("" ∈ sends (trace (sample.watchIteration cases.outage "urlprefix-"
                               ["passing"] 0 ["dc1"] 0%N 0%nat))) as Hin.
  { vm_compute. apply list_elem_of_here. }
  split; [exact Hout|]. split; [exact Hin|].
  exact (consul_more.catalog_outage_publishes_empty_document "linux"
           sample.unicodeIsPrint sample.mapiterinit design.parseURLPrefixTag
           design.passingServices cases.outage "urlprefix-" ["passing"] 0
           ["dc1"] 0%N 0%nat "" Hout Hin).
Defined.

(** Witness of C7: the read of the second datacenter fails, the document
    of the first is sent all the same, and on the catalog of the sample,
    which answers every read, it holds the lines of the passing
    instances. *)
Lemma remote_failure_witness :
  index ["dc1"; "dc2"] 0 = Some "dc1"
  ∧ Health_State (sample.agent 0 sample.webChecks [sample.web1; sample.web2])
      "any" (localQuery "dc1" 0) 0%nat
    = (Ok (sample.webChecks, {| LastIndex := 7 |}), 1%nat)
  ∧ Stateless (sample.agent 0 sample.webChecks [sample.web1; sample.web2])
      (Ok ["dc1"])
      (λ name dc, Ok (cases.listing [sample.web1; sample.web2] name dc))
  ∧ ∃ records w2 t2 doc w3 t3,
      RemoteReads (sample.agent 0 sample.webChecks [sample.web1; sample.web2])
        0 0 ["dc1"; "dc2"] 1%nat records w2 t2
      ∧ sample.servicesConfig
          (sample.agent 0 sample.webChecks [sample.web1; sample.web2])
          (design.passingServices (sample.webChecks ++ records) ["passing"])
          "urlprefix-" w2
        = (doc, w3, t3)
      ∧ sample.watchIteration
          (sample.agent 0 sample.webChecks [sample.web1; sample.web2])
          "urlprefix-" ["passing"] 0 ["dc1"; "dc2"] 0%N 0%nat
        = (Some 7%N, w3,
           LogPrintf ("[WARN] consul: Health changed to #" +:+ fmt_u 7)
             :: t2 ++ t3 ++ [ChanSend doc])
      ∧ sends (trace (sample.watchIteration
                        (sample.agent 0 sample.webChecks [sample.web1; sample.web2])
                        "urlprefix-" ["passing"] 0 ["dc1"; "dc2"] 0%N 0%nat))
        = [doc]
      ∧ doc = Join (value (sample.sortedConfig
                             (sample.agent 0 sample.webChecks
                                [sample.web1; sample.web2])
                             (design.passingServices
                                (sample.webChecks ++ records) ["passing"])
                             "urlprefix-" w2)) newline
      ∧ ∀ line,
          line ∈ value (sample.sortedConfig
                          (sample.agent 0 sample.webChecks
                             [sample.web1; sample.web2])
                          (design.passingServices
                             (sample.webChecks ++ records) ["passing"])
                          "urlprefix-" w2)
          ↔ ∃ c dc' svc,
              c ∈ design.passingServices (sample.webChecks ++ records)
                    ["passing"]
              ∧ HealthCheck.ServiceName c ≠ ""
              ∧ dc' ∈ ["dc1"]
              ∧ svc ∈ cases.listing [sample.web1; sample.web2]
                        (HealthCheck.ServiceName c) dc'
              ∧ CatalogService.ServiceID svc = HealthCheck.ServiceID c
              ∧ lineOf "linux" sample.unicodeIsPrint
                  design.parseURLPrefixTag "urlprefix-" dc' svc line.
Proof.
  assert (index ["dc1"; "dc2"] 0 = Some "dc1") as Hi by reflexivity.
  assert (Health_State (sample.agent 0 sample.webChecks [sample.web1; sample.web2])
            "any" (localQuery "dc1" 0) 0%nat
          = (Ok (sample.webChecks, {| LastIndex := 7 |}), 1%nat)) as Hh
    by reflexivity.
  assert (Stateless (sample.agent 0 sample.webChecks [sample.web1; sample.web2])
            (Ok ["dc1"])
            (λ name dc, Ok (cases.listing [sample.web1; sample.web2] name dc)))
    as Hst by (split; intros; reflexivity).
  split; [exact Hi|]. split; [exact Hh|]. split; [exact Hst|].
  destruct (consul_more.remote_failure_still_publishes "linux"
              sample.unicodeIsPrint sample.mapiterinit design.parseURLPrefixTag
              design.passingServices
              (sample.agent 0 sample.webChecks [sample.web1; sample.web2])
              "urlprefix-" ["passing"] 0 ["dc1"; "dc2"] "dc1" 0%N 0%nat
              sample.webChecks {| LastIndex := 7 |} 1%nat Hi Hh)
    as (records & w2 & t2 & doc & w3 & t3 & H1 & H2 & H3 & H4 & H5).
  exists records, w2, t2, doc, w3, t3.
  split; [exact H1|]. split; [exact H2|]. split; [exact H3|]. split; [exact H4|].
  exact (H5 ["dc1"] (cases.listing [sample.web1; sample.web2]) Hst).
Defined.

(** That turn on the sample: the read of [dc2] fails, and the document is
    the line of the passing instance. *)
Example remote_failure_document :
  Health_State (sample.agent 0 sample.webChecks [sample.web1; sample.web2])
    "any" {| Datacenter := "dc2"; RequireConsistent := true; WaitIndex := 0 |}
    1%nat
  = (Err "no path to datacenter", 2%nat)
  ∧ sends (trace (sample.watchIteration
                    (sample.agent 0 sample.webChecks [sample.web1; sample.web2])
                    "urlprefix-" ["passing"] 0 ["dc1"; "dc2"] 0%N 0%nat))
    = [sample.webLine].
Proof. split; by vm_compute. Qed.

(** Counterexample to C7 as stated: the local read succeeds and the read
    of [dc2] fails, as does the catalog read for [dc2]; [web-1] passes
    all its checks and the catalog lists it in [dc1] with a tag that
    parses, yet the document that the turn sends is empty: the local
    records are not in it. *)
Lemma remote_outage_empties_document :
  Health_State cases.partitioned "any" (localQuery "dc1" 0) 0%nat
  = (Ok (sample.webChecks, {| LastIndex := 7 |}), 1%nat)
  ∧ Health_State cases.partitioned "any"
      {| Datacenter := "dc2"; RequireConsistent := true; WaitIndex := 0 |} 1%nat
    = (Err "no path to datacenter", 2%nat)
  ∧ sample.check "web" "web-1" "passing"
      ∈ design.passingServices sample.webChecks ["passing"]
  ∧ listed cases.partitioned "web" "dc1" sample.web1
  ∧ lineOf "linux" sample.unicodeIsPrint design.parseURLPrefixTag "urlprefix-"
      "dc1" sample.web1 sample.webLine
  ∧ sends (trace (sample.watchIteration cases.partitioned "urlprefix-"
                    ["passing"] 0 ["dc1"; "dc2"] 0%N 0%nat))
    = [""]
  ∧ Contains "" sample.webLine = false.
Proof.
  split_and!; try (by vm_compute).
  - vm_compute. apply list_elem_of_here.
  - exists 0%nat, 1%nat, [sample.web1; sample.web2]. split; [by vm_compute|].
    apply list_elem_of_here.
  - exists "urlprefix-/foo", "", "/foo". split_and!.
    + apply list_elem_of_here.
    + by vm_compute.
    + by vm_compute.
Qed.

(** Witness of X14: a request that is served. *)
Lemma lookup_before_injection_witness :
  sample.ShuttingDown (false, 0%Z) = false
  ∧ proxy.lookups
      (trace (sample.ServeHTTP sample.fabio sample.both (false, 0%Z)))
    = [sample.both]
  ∧ ∀ h r',
      proxy.Handler_ServeHTTP h r'
        ∈ trace (sample.ServeHTTP sample.fabio sample.both (false, 0%Z)) →
      design.addHeaders sample.both (proxy.cfg sample.fabio) = inr r'.
Proof.
  split; [reflexivity|].
  apply (proxy_more.lookup_before_header_injection sample.ShuttingDown
           sample.target design.addHeaders sample.Now sample.fabio sample.both
           (false, 0%Z)).
  reflexivity.
Defined.

(** The injection does change the request of that run. *)
Example injection_changes_request :
  sample.injected sample.both ≠ sample.both.
Proof. by vm_compute. Qed.

(** Witness of X15: a remote address without a port. *)
Lemma header_error_witness :
  sample.ShuttingDown (false, 0%Z) = false
  ∧ sample.target (sample.request "example.com" "nowhere" ∅) (false, 0%Z)
    = (Some sample.backend, (false, 0%Z))
  ∧ design.addHeaders (sample.request "example.com" "nowhere" ∅)
      (proxy.cfg sample.fabio)
    = inl "cannot parse nowhere"
  ∧ sample.ServeHTTP sample.fabio (sample.request "example.com" "nowhere" ∅)
      (false, 0%Z)
    = (tt, (false, 0%Z),
       [proxy.Lookup (sample.request "example.com" "nowhere" ∅);
        proxy.http_Error
          ("cannot parse "
           +:+ proxy.RemoteAddr (sample.request "example.com" "nowhere" ∅))
          500%Z])
  ∧ proxy.handlers
      (trace (sample.ServeHTTP sample.fabio
                (sample.request "example.com" "nowhere" ∅) (false, 0%Z)))
    = [].
Proof.
  split; [reflexivity|]. split; [reflexivity|]. split; [reflexivity|].
  apply (proxy_more.header_error_answers_500 sample.ShuttingDown sample.target
           design.addHeaders sample.Now sample.fabio
           (sample.request "example.com" "nowhere" ∅) (false, 0%Z)
           sample.backend (false, 0%Z) "cannot parse nowhere");
    reflexivity.
Defined.

(** Witness of X16: a request for an event stream, flushing switched
    off. *)
Lemma zero_flush_interval_witness :
  sample.ShuttingDown (false, 0%Z) = false
  ∧ sample.target cases.stream (false, 0%Z) = (Some sample.backend, (false, 0%Z))
  ∧ design.addHeaders cases.stream (proxy.cfg cases.unflushed)
    = inr (sample.injected cases.stream)
  ∧ proxy.FlushInterval (proxy.cfg cases.unflushed) = 0%Z
  ∧ proxy.Header_Get (proxy.header (sample.injected cases.stream)) "Upgrade"
    ≠ "websocket"
  ∧ proxy.Header_Get (proxy.header (sample.injected cases.stream)) "Accept"
    = "text/event-stream"
  ∧ proxy.handlers
      (trace (sample.ServeHTTP cases.unflushed cases.stream (false, 0%Z)))
    = [proxy.newHTTPProxy (proxy.target_URL sample.backend)
         (proxy.tr cases.unflushed) 0%Z].
Proof.
  assert (proxy.Header_Get (proxy.header (sample.injected cases.stream)) "Upgrade"
          ≠ "websocket") as Hu by (vm_compute; discriminate).
  split; [reflexivity|]. split; [reflexivity|]. split; [by vm_compute|].
  split; [reflexivity|]. split; [exact Hu|]. split; [by vm_compute|].
  apply (proxy_more.zero_flush_interval_has_no_effect sample.ShuttingDown
           sample.target design.addHeaders sample.Now cases.unflushed
           cases.stream (false, 0%Z) sample.backend (false, 0%Z)
           (sample.injected cases.stream));
    [reflexivity | reflexivity | by vm_compute | reflexivity | exact Hu].
Defined.

End more_runs.
